(** * Lazy task graphs of scripts/usecases.py

    The script builds lazy computation graphs with deferred calls
    ([@delayed] functions) and prints their structural metrics.  This
    development embeds the delayed recipes [bench_merge] and [bench_tree]
    together with the callables [do_something], [merge] and [add], over an
    explicit graph builder, and studies the shape of the graphs they build
    and the values they compute.  The recipes over dataframes, arrays, bags
    and [time.sleep] are outside its scope.

    The graph engine itself (node creation, metrics, executor) is not part
    of scripts/usecases.py; it is modelled here from its specification and
    every such definition says so in its doc comment. *)

From stdpp Require Import base list numbers gmap strings.

Open Scope Z_scope.
Open Scope nat_scope.

(** ** Data model *)

(** A handle (future reference) names a node of one graph instance. *)
Record Handle := mkHandle { h_graph : nat; h_node : nat }.

(** An argument is a literal value or a reference to another node's result.
    [bench_merge] and [bench_tree] only pass Python integers as literals. *)
Inductive Arg :=
| Lit (v : Z)
| Ref (h : Handle).

(** A callable is opaque to the core: a label and a function from the
    positional argument values to a value; [None] stands for a raised
    exception. *)
Record Callable := mkCallable { name : string; call : list Z → option Z }.

Record TaskNode := mkNode { callable : Callable; args : list Arg }.

(** Modelled from the spec: the TaskGraph container of section 3, absent from
    the script.  Node identity is the position in [nodes]; [preds] and
    [succs] are the derived adjacency in both directions. *)
Record TaskGraph := mkGraph {
  graph_id : nat;
  nodes : list TaskNode;
  preds : list (list nat);
  succs : list (list nat)
}.

Inductive Error :=
| InvalidReferenceError
| CrossGraphReferenceError
| CycleDetectedError
| IndexError
| FuelExhausted.

Inductive Result (A : Type) :=
| Ok (a : A)
| Err (e : Error).
Arguments Ok {A} a.
Arguments Err {A} e.

Global Instance Handle_eq_dec : EqDecision Handle.
Proof. solve_decision. Defined.
Global Instance Error_eq_dec : EqDecision Error.
Proof. solve_decision. Defined.

(** ** The builder monad: graph state threaded through deferred calls *)

Definition Builder (A : Type) : Type := TaskGraph → Result (A * TaskGraph).

Definition ret {A} (a : A) : Builder A := λ g, Ok (a, g).

Definition bind {A B} (m : Builder A) (k : A → Builder B) : Builder B :=
  λ g, match m g with
       | Ok (a, g') => k a g'
       | Err e => Err e
       end.

Definition raise {A} (e : Error) : Builder A := λ _, Err e.

Notation "x <- m ;; k" := (bind m (λ x, k))
  (at level 100, m at next level, right associativity).

Definition new_graph (gid : nat) : TaskGraph :=
  {| graph_id := gid; nodes := []; preds := []; succs := [] |}.

(** ** GraphBuilder.defer *)

Definition check_arg (g : TaskGraph) (a : Arg) : option Error :=
  match a with
  | Lit _ => None
  | Ref h =>
      if bool_decide (h_graph h = graph_id g) then
        if bool_decide (h_node h < length (nodes g)) then None
        else Some InvalidReferenceError
      else Some CrossGraphReferenceError
  end.

Fixpoint check_args (g : TaskGraph) (l : list Arg) : option Error :=
  match l with
  | [] => None
  | a :: l' =>
      match check_arg g a with
      | Some e => Some e
      | None => check_args g l'
      end
  end.

(** The node identities of the handle-valued arguments, in order. *)
Fixpoint arg_refs (l : list Arg) : list nat :=
  match l with
  | [] => []
  | Lit _ :: l' => arg_refs l'
  | Ref h :: l' => h_node h :: arg_refs l'
  end.

Definition add_edge (n : nat) (ss : list (list nat)) (p : nat) : list (list nat) :=
  alter (λ l, l ++ [n]) p ss.

(** Modelled from the spec: the [defer] primitive of section 4.2 (the role
    [dask.delayed] plays in the script).  It registers a node, derives one
    edge per handle-valued argument and returns the new handle; a handle of
    another graph or of a node that does not exist fails the call and leaves
    the graph as it was. *)
Definition defer (f : Callable) (l : list Arg) : Builder Handle :=
  λ g, match check_args g l with
       | Some e => Err e
       | None =>
           let n := length (nodes g) in
           Ok (mkHandle (graph_id g) n,
               {| graph_id := graph_id g;
                  nodes := nodes g ++ [mkNode f l];
                  preds := preds g ++ [arg_refs l];
                  succs := foldl (add_edge n) (succs g ++ [[]]) (arg_refs l) |})
       end.

(** ** Python helpers *)

(** [range(n)] *)
Definition range (n : nat) : list Z := Z.of_nat <$> seq 0 n.

(** [range(0, n, 2)] *)
Definition range_even (n : nat) : list nat := (λ k, 2 * k) <$> seq 0 ((n + 1) / 2).

(** [sum(args)]: left to right from 0. *)
Definition py_sum (l : list Z) : Z := foldl Z.add 0%Z l.

(** [[f(x) for x in xs]] *)
Fixpoint list_comp {A B} (f : A → Builder B) (xs : list A) : Builder (list B) :=
  match xs with
  | [] => ret []
  | x :: xs' => y <- f x ;; ys <- list_comp f xs' ;; ret (y :: ys)
  end.

(** ** The delayed callables of the script *)

Definition do_something : Callable :=
  mkCallable "do_something"
    (λ a, match a with [x] => Some (x * 10)%Z | _ => None end).

Definition merge : Callable := mkCallable "merge" (λ a, Some (py_sum a)).

Definition add : Callable :=
  mkCallable "add" (λ a, match a with [x; y] => Some (x + y)%Z | _ => None end).

(** ** The recipes *)

Definition bench_merge (count : nat) : Builder Handle :=
  xs <- list_comp (λ x, defer do_something [Lit x]) (range count) ;;
  result <- defer merge (Ref <$> xs) ;;
  ret result.

(** The [for] loop of [bench_tree]: [i] runs over [range(0, len(L), 2)];
    [L[i + 1]] past the end raises [IndexError]. *)
Fixpoint for_loop (idx : list nat) (L new_L : list Arg) : Builder (list Arg) :=
  match idx with
  | [] => ret new_L
  | i :: idx' =>
      match L !! i, L !! (i + 1) with
      | Some x, Some y =>
          lazy <- defer add [x; y] ;;
          for_loop idx' L (new_L ++ [Ref lazy])
      | _, _ => raise IndexError
      end
  end.

(** The [while] loop of [bench_tree], bounded by [fuel] iterations. *)
Fixpoint while_loop (fuel : nat) (L : list Arg) : Builder (list Arg) :=
  if bool_decide (1 < length L) then
    match fuel with
    | 0 => raise FuelExhausted
    | S fuel' =>
        new_L <- for_loop (range_even (length L)) L [] ;;
        while_loop fuel' new_L
    end
  else ret L.

(** Every pass at least halves a list longer than 1, so [len(L)] passes are
    always enough (see [while_loop_fuel]). *)
Definition bench_tree (exp : nat) : Builder (list Arg) :=
  let L := Lit <$> range (2 ^ exp) in
  while_loop (length L) L.

(** ** Construction history *)

(** The graphs a builder can hold: the empty graph and what successful
    [defer] calls make of it (a failed call leaves the graph as it was). *)
Inductive built : TaskGraph → Prop :=
| built_new gid : built (new_graph gid)
| built_defer g f l h g' : built g → defer f l g = Ok (h, g') → built g'.

(** The number of handle-valued arguments a node was created with. *)
Definition is_handle (a : Arg) : bool :=
  match a with Ref _ => true | Lit _ => false end.

Definition handle_args (nd : TaskNode) : nat := length (filter is_handle (args nd)).

(** ** GraphMetrics *)

(** Modelled from the spec: the vertex count of section 4.4, absent from the
    script (which leaves the metrics to networkx). *)
Definition vertexCount (g : TaskGraph) : nat := length (nodes g).

(** Modelled from the spec: the structural dump of section 6, the list of
    (predecessor, successor) pairs, read off the successor lists. *)
Definition edges (g : TaskGraph) : list (nat * nat) :=
  mjoin (imap (λ p ss, (λ n, (p, n)) <$> ss) (succs g)).

(** Modelled from the spec: the edge count of section 4.4. *)
Definition edgeCount (g : TaskGraph) : nat := length (edges g).

(** Modelled from the spec: longest path from a root, by dynamic programming:
    roots at 0, any other node at 1 + the maximum over its predecessors. *)
Definition node_depth (D : list nat) (ps : list nat) : nat :=
  match ps with
  | [] => 0
  | _ => S (max_list ((λ p, default 0 (D !! p)) <$> ps))
  end.

(** Modelled from the spec: the dynamic programme runs over the topological
    order; creation order is one, since arguments never refer forward. *)
Definition longest_paths (P : list (list nat)) : list nat :=
  foldl (λ D ps, D ++ [node_depth D ps]) [] P.

Definition longest_from_root (g : TaskGraph) : list nat := longest_paths (preds g).

Definition depth (g : TaskGraph) (n : nat) : nat := default 0 (longest_from_root g !! n).

(** Modelled from the spec: the nodes that have no successors. *)
Definition sinks (g : TaskGraph) : list nat :=
  filter (λ n, succs g !! n = Some []) (seq 0 (length (nodes g))).

(** Modelled from the spec: longest path to designated terminals, and the
    global critical path, the maximum over all nodes without successors. *)
Definition criticalPathTo (g : TaskGraph) (ts : list nat) : nat := max_list (depth g <$> ts).

Definition criticalPathLength (g : TaskGraph) : nat := criticalPathTo g (sinks g).

(** A graph of disconnected single-node components. *)
Definition isolated (g : TaskGraph) : Prop :=
  ∀ n, n < vertexCount g → preds g !! n = Some [] ∧ succs g !! n = Some [].

(** Nodes without and with incoming edges. *)
Definition leafCount (g : TaskGraph) : nat := length (filter (λ ps, ps = []) (preds g)).

Definition internalCount (g : TaskGraph) : nat := length (filter (λ ps, ps ≠ []) (preds g)).

(** ** Scheduler / Executor *)

(** Modelled from the spec: the per-node result of section 3, a success value
    or one of the failure records of section 7. *)
Inductive ExecutionResult :=
| Success (v : Z)
| TaskExecutionError (n : nat)
| DependencyFailedError.

Global Instance ExecutionResult_eq_dec : EqDecision ExecutionResult.
Proof. solve_decision. Defined.

(** Modelled from the spec: the state of one execution pass, the result slots
    filled so far; [trace] logs the callable invocations in order, as a
    counting callable would. *)
Record ExecState := mkState {
  results : gmap nat ExecutionResult;
  trace : list nat
}.

Definition init_state : ExecState := mkState ∅ [].

(** Modelled from the spec: argument binding by position; the values of the
    arguments, when every referenced node succeeded. *)
Fixpoint gather (rs : gmap nat ExecutionResult) (l : list Arg) : option (list Z) :=
  match l with
  | [] => Some []
  | Lit v :: l' => (λ vs, v :: vs) <$> gather rs l'
  | Ref h :: l' =>
      match rs !! h_node h with
      | Some (Success v) => (λ vs, v :: vs) <$> gather rs l'
      | _ => None
      end
  end.

(** Modelled from the spec: the failure policy of section 7.  A node whose
    dependency did not succeed is not executed and reports
    [DependencyFailedError]; a callable that fails reports
    [TaskExecutionError] with the node's identity. *)
Definition eval_node (rs : gmap nat ExecutionResult) (n : nat) (nd : TaskNode) : ExecutionResult :=
  match gather rs (args nd) with
  | None => DependencyFailedError
  | Some vs =>
      match call (callable nd) vs with
      | Some v => Success v
      | None => TaskExecutionError n
      end
  end.

(** Whether the callable of the node is called at all. *)
Definition invoked (rs : gmap nat ExecutionResult) (nd : TaskNode) : bool :=
  bool_decide (is_Some (gather rs (args nd))).

(** Modelled from the spec: the result of node [n], computed from the slots
    [rs], is attached to its slot; an invocation is logged. *)
Definition commit (g : TaskGraph) (rs : gmap nat ExecutionResult)
    (st : ExecState) (n : nat) : ExecState :=
  match nodes g !! n with
  | Some nd =>
      mkState (<[n := eval_node rs n nd]> (results st))
              (trace st ++ if invoked rs nd then [n] else [])
  | None => st
  end.

(** Modelled from the spec: one scheduling round.  The nodes of the batch run
    side by side: each reads the result slots as they were when the round
    started. *)
Definition exec_batch (g : TaskGraph) (st : ExecState) (batch : list nat) : ExecState :=
  foldl (λ acc n, commit g (results st) acc n) st batch.

(** Modelled from the spec: the dependency-count gate of section 5. *)
Definition pending (g : TaskGraph) (st : ExecState) (n : nat) : nat :=
  length (filter (λ p, results st !! p = None) (default [] (preds g !! n))).

Definition runnable (g : TaskGraph) (st : ExecState) (n : nat) : Prop :=
  n < length (nodes g) ∧ results st !! n = None ∧ pending g st n = 0.

Global Instance runnable_dec g st n : Decision (runnable g st n).
Proof. unfold runnable. apply _. Defined.

Definition ready (g : TaskGraph) (st : ExecState) : list nat :=
  filter (runnable g st) (seq 0 (length (nodes g))).

Definition unresolved (g : TaskGraph) (st : ExecState) : list nat :=
  filter (λ n, results st !! n = None) (seq 0 (length (nodes g))).

(** Modelled from the spec: the scheduler of section 4.3, Kahn style: while
    nodes are unresolved, run up to [limit] runnable nodes per round; no
    runnable node while some are unresolved is a cycle. *)
Fixpoint schedule (fuel : nat) (g : TaskGraph) (limit : positive) (st : ExecState)
  : Result ExecState :=
  if bool_decide (unresolved g st = []) then Ok st
  else
    match fuel with
    | 0 => Err FuelExhausted
    | S fuel' =>
        match take (Pos.to_nat limit) (ready g st) with
        | [] => Err CycleDetectedError
        | batch => schedule fuel' g limit (exec_batch g st batch)
        end
    end.

(** Every round resolves a node, so one round per node is always enough
    (see [execute_total]). *)
Definition execute (g : TaskGraph) (limit : positive) : Result ExecState :=
  schedule (length (nodes g)) g limit init_state.

(** Modelled from the spec: the entry point of section 6,
    [run(graph, terminals, concurrencyLimit)]. *)
Definition run (g : TaskGraph) (terminals : list Handle) (limit : positive)
  : Result (list (Handle * ExecutionResult)) :=
  match check_args g (Ref <$> terminals) with
  | Some e => Err e
  | None =>
      match execute g limit with
      | Err e => Err e
      | Ok st => Ok (omap (λ t, (λ r, (t, r)) <$> results st !! h_node t) terminals)
      end
  end.

(** Modelled from the spec: nodes with no unresolved dependency may run in
    any order.  A round of any schedule runs any batch of distinct runnable
    nodes, at most [limit] of them. *)
Definition valid_batch (g : TaskGraph) (limit : positive) (st : ExecState) (batch : list nat) : Prop :=
  batch ≠ [] ∧ NoDup batch ∧ length batch ≤ Pos.to_nat limit ∧ Forall (runnable g st) batch.

Inductive exec_step (g : TaskGraph) (limit : positive) : ExecState → ExecState → Prop :=
| exec_round st batch :
    valid_batch g limit st batch → exec_step g limit st (exec_batch g st batch).

Definition execution (g : TaskGraph) (limit : positive) (st : ExecState) : Prop :=
  rtc (exec_step g limit) init_state st.

Definition complete (g : TaskGraph) (st : ExecState) : Prop :=
  ∀ n, n < length (nodes g) → is_Some (results st !! n).

(** The reference pass: one node at a time, in creation order. *)
Definition sequential (g : TaskGraph) : ExecState :=
  foldl (λ st n, exec_batch g st [n]) init_state (seq 0 (length (nodes g))).

Definition value_of (g : TaskGraph) (n : nat) : option ExecutionResult :=
  results (sequential g) !! n.

(** No callable of the graph fails on the arguments it receives. *)
Definition failure_free (g : TaskGraph) : Prop :=
  ∀ n, n < length (nodes g) → ∃ v, value_of g n = Some (Success v).

(** ** Predicates used in the proofs *)

(** What [check_arg] accepts. *)
Definition valid_arg (g : TaskGraph) (a : Arg) : Prop :=
  match a with
  | Lit _ => True
  | Ref h => h_graph h = graph_id g ∧ h_node h < length (nodes g)
  end.

(** No forward references: the adjacency of a graph built by [defer]. *)
Definition backward (P : list (list nat)) : Prop :=
  ∀ n ps p, P !! n = Some ps → p ∈ ps → p < n.

(** The invariants of built graphs: the adjacency is the one derived from
    the arguments, arguments refer backward and into the same graph, and
    both directions of the adjacency hold the same edges. *)
Record wf (g : TaskGraph) : Prop := mkWf {
  wf_preds : preds g = (λ nd, arg_refs (args nd)) <$> nodes g;
  wf_args : ∀ n nd, nodes g !! n = Some nd →
            Forall (λ a, match a with
                         | Lit _ => True
                         | Ref h => h_graph h = graph_id g ∧ h_node h < n
                         end) (args nd);
  wf_succs_length : length (succs g) = length (nodes g);
  wf_succs : ∀ p m, m ∈ default [] (succs g !! p) ↔ p ∈ default [] (preds g !! m);
  wf_out_in : sum_list_with length (succs g) = sum_list_with length (preds g)
}.

(** The handles of the next [n] nodes to be created. *)
Definition new_handles (g : TaskGraph) (n : nat) : list Handle :=
  mkHandle (graph_id g) <$> seq (length (nodes g)) n.

(** The nodes one pass of the [for] loop of [bench_tree] creates. *)
Fixpoint pair_nodes (L : list Arg) : list TaskNode :=
  match L with
  | x :: y :: L' => mkNode add [x; y] :: pair_nodes L'
  | _ => []
  end.

Definition level_step (g : TaskGraph) (L : list Arg) (g' : TaskGraph) : Prop :=
  built g' ∧ graph_id g' = graph_id g ∧ nodes g' = nodes g ++ pair_nodes L.

(** The depth a node gets from an argument: a literal asks for nothing, a
    handle puts the node one above the node it names. *)
Definition arg_level (g : TaskGraph) (a : Arg) : nat :=
  match a with
  | Lit _ => 0
  | Ref h => S (depth g (h_node h))
  end.

(** The shape of the graph of [bench_tree exp] when the [while] loop holds a
    list of [2 ^ k] arguments. *)
Definition tree_shape (e k : nat) (L : list Arg) (g : TaskGraph) : Prop :=
  k ≤ e ∧
  length (preds g) = 2 ^ e - 2 ^ k ∧
  leafCount g = (if decide (k = e) then 0 else 2 ^ (e - 1)) ∧
  internalCount g = 2 ^ (e - 1) - 2 ^ k ∧
  sum_list_with length (preds g) = 2 ^ e - 2 ^ S k ∧
  Forall (λ q, q = [] ∨ length q = 2) (preds g) ∧
  Forall (λ a, arg_level g a = e - k) L ∧
  Forall (λ d, d < e - k) (longest_from_root g).

(** The list the [while] loop holds after the first pass names the nodes
    created last; [n0] nodes were there before the recipe started. *)
Definition tree_front (e n0 k : nat) (L : list Arg) (g : TaskGraph) : Prop :=
  n0 ≤ length (nodes g) ∧
  (k < e →
   L = Ref <$> (mkHandle (graph_id g) <$> seq (length (nodes g) - 2 ^ k) (2 ^ k)) ∧
   n0 + 2 ^ k ≤ length (nodes g)).

(** The tree-reduction scenario as the specification words it: the leaves
    counted as nodes of the graph. *)
Definition tree_scenario (exp : nat) (g : TaskGraph) : Prop :=
  leafCount g = 2 ^ exp ∧
  internalCount g = 2 ^ exp - 1 ∧
  edgeCount g = 2 ^ (exp + 1) - 2 ∧
  criticalPathLength g = exp.

(** The reference pass stopped after the first [m] nodes. *)
Definition seq_run (g : TaskGraph) (m : nat) : ExecState :=
  foldl (λ st n, exec_batch g st [n]) init_state (seq 0 m).

(** Whether running node [n] against the slots [rs] calls its callable. *)
Definition invokes (g : TaskGraph) (rs : gmap nat ExecutionResult) (n : nat) : bool :=
  match nodes g !! n with
  | Some nd => invoked rs nd
  | None => false
  end.

(** What holds of every state a schedule can reach: slots hold the values of
    the reference pass; a callable is logged at most once, exactly when its
    node resolved to something else than [DependencyFailedError]; and the
    dependencies of a logged node are logged before it. *)
Record exec_inv (g : TaskGraph) (st : ExecState) : Prop := mkInv {
  inv_sound : ∀ n r, results st !! n = Some r → value_of g n = Some r;
  inv_nodup : NoDup (trace st);
  inv_trace : ∀ n, n ∈ trace st ↔
                   ∃ r, results st !! n = Some r ∧ r ≠ DependencyFailedError;
  inv_order : ∀ i n ps p, trace st !! i = Some n → preds g !! n = Some ps → p ∈ ps →
                          ∃ j, j < i ∧ trace st !! j = Some p
}.

(** What a builder programme made of [defer] calls does to a built graph. *)
Definition preserves_built {A} (m : Builder A) : Prop :=
  ∀ g a g', built g → m g = Ok (a, g') → built g'.

(** How often the callable of node [n] was invoked in a pass, and the
    fan-out of a node. *)
Definition invocations (st : ExecState) (n : nat) : nat :=
  length (filter (λ m, m = n) (trace st)).



(** A chain [A -> B -> C]: [B] consumes [A], [C] consumes [B]. *)
Definition chain (fa : Callable) (la : list Z) (fb fc : Callable)
  : Builder (Handle * Handle * Handle) :=
  a <- defer fa (Lit <$> la) ;;
  b <- defer fb [Ref a] ;;
  c <- defer fc [Ref b] ;;
  ret (a, b, c).



Definition graph_of {A} (m : Builder A) (gid : nat) : TaskGraph :=
  match m (new_graph gid) with
  | Ok (_, g) => g
  | Err _ => new_graph gid
  end.

Definition state_of (r : Result ExecState) : ExecState :=
  match r with
  | Ok st => st
  | Err _ => init_state
  end.

(** The value an argument stands for once the graph has run. *)
Definition arg_value (g : TaskGraph) (a : Arg) (v : Z) : Prop :=
  match a with
  | Lit x => v = x
  | Ref h => value_of g (h_node h) = Some (Success v)
  end.

(** The values one pass of the [for] loop of [bench_tree] computes. *)
Fixpoint pair_sums (vs : list Z) : list Z :=
  match vs with
  | x :: y :: vs' => (x + y)%Z :: pair_sums vs'
  | _ => []
  end.

(** The values behind the list the [while] loop holds add up to [total]. *)
Definition tree_value (total : Z) (k : nat) (L : list Arg) (g : TaskGraph) : Prop :=
  ∃ vs, Forall2 (arg_value g) L vs ∧ py_sum vs = total.

(** ** The slow merge recipe *)

(** The longest delay [time.sleep] takes: it counts nanoseconds in a signed
    64-bit integer, 2^63 - 1 of them at most. *)
Definition sleep_max : Z := 9223372036.

(** [sleep]: [time.sleep(delay)], then [return delay].  The time that passes
    is outside the model; what is kept of [time.sleep] is what it refuses:
    it raises [ValueError] for a negative delay and [OverflowError] for a
    delay above [sleep_max] seconds.  Literals are integers, so the delay is
    a whole number of seconds here. *)
Definition sleep : Callable :=
  mkCallable "sleep"
    (λ a, match a with
          | [delay] =>
              if bool_decide (0 ≤ delay ≤ sleep_max)%Z then Some delay else None
          | _ => None
          end).

Definition bench_merge_slow (count : nat) (delay : Z) : Builder Handle :=
  xs <- list_comp (λ _, defer sleep [Lit delay]) (range count) ;;
  result <- defer merge (Ref <$> xs) ;;
  ret result.

(** ** Further predicates used in the proofs *)

(** The callable of a node returns on every argument list of the node's
    arity. *)
Definition total_on (nd : TaskNode) : Prop :=
  ∀ vs, length vs = length (args nd) → is_Some (call (callable nd) vs).

(** The arguments [bench_tree exp] consumes, in order, when it starts on a
    graph [gid] of [n0] nodes: the literals of [range(2 ** exp)], then the
    handles of the nodes it creates itself. *)
Definition tree_stream (gid n0 e : nat) : list Arg :=
  (Lit <$> range (2 ^ e)) ++ (Ref <$> (mkHandle gid <$> seq n0 (2 ^ e - 1))).

(** The [while] loop holds [2 ^ k] arguments: the nodes created so far pair
    up a prefix of the stream, and the list is the segment that follows. *)
Definition tree_exact (gid n0 e : nat) (N0 : list TaskNode)
    (k : nat) (L : list Arg) (g : TaskGraph) : Prop :=
  k ≤ e ∧ graph_id g = gid ∧
  nodes g = N0 ++ pair_nodes (take (2 * (2 ^ e - 2 ^ k)) (tree_stream gid n0 e)) ∧
  L = take (2 ^ k) (drop (2 * (2 ^ e - 2 ^ k)) (tree_stream gid n0 e)).

(** The depths of the nodes that were there stay as they were in [D0]; the
    new nodes lie below level [e - k], where the arguments of the list sit. *)
Definition tree_depths (e : nat) (D0 : list nat)
    (k : nat) (L : list Arg) (g : TaskGraph) : Prop :=
  k ≤ e ∧
  take (length D0) (longest_from_root g) = D0 ∧
  length D0 ≤ length (longest_from_root g) ∧
  Forall (λ d, d < e - k) (drop (length D0) (longest_from_root g)) ∧
  Forall (λ a, arg_level g a = e - k) L.

(** No node from [n0] on depends on a node before [n0]. *)
Definition detached (n0 : nat) (g : TaskGraph) : Prop :=
  ∀ m ps p, preds g !! m = Some ps → n0 ≤ m → p ∈ ps → n0 ≤ p.

(** * Properties *)

Example bench_tree_3_nodes :
  match bench_tree 3 (new_graph 0) with
  | Ok (L, g) => (L, preds g, succs g)
  | Err _ => ([], [], [])
  end =
  ([Ref (mkHandle 0 6)],
   [[]; []; []; []; [0; 1]; [2; 3]; [4; 5]],
   [[4]; [4]; [5]; [5]; [6]; [6]; []]).
Proof. vm_compute. reflexivity. Qed.

Example bench_merge_3_nodes :
  match bench_merge 3 (new_graph 0) with
  | Ok (h, g) => (h, preds g, succs g)
  | Err _ => (mkHandle 0 0, [], [])
  end =
  (mkHandle 0 3, [[]; []; []; [0; 1; 2]], [[3]; [3]; [3]; []]).
Proof. vm_compute. reflexivity. Qed.

(** ** The builder monad *)

Lemma bind_ok {A B} (m : Builder A) (k : A → Builder B) g a g' :
  m g = Ok (a, g') → bind m k g = k a g'.
Proof. intros H. unfold bind. by rewrite H. Qed.

(** ** Argument validation *)

Lemma check_arg_None g a : check_arg g a = None ↔ valid_arg g a.
Proof.
  destruct a as [v|h]; simpl; [done|].
  repeat case_bool_decide; split; try done; intros []; done.
Qed.

Lemma check_args_None g l : check_args g l = None ↔ Forall (valid_arg g) l.
Proof.
  induction l as [|a l IH]; simpl.
  - split; [constructor|done].
  - rewrite Forall_cons, <- IH, <- check_arg_None.
    destruct (check_arg g a); split; try done; intros []; done.
Qed.

Lemma arg_refs_app l1 l2 : arg_refs (l1 ++ l2) = arg_refs l1 ++ arg_refs l2.
Proof.
  induction l1 as [|[v|h] l1 IH]; simpl; [done|done|by f_equal].
Qed.

Lemma arg_refs_length l : length (arg_refs l) = length (filter is_handle l).
Proof.
  induction l as [|[v|h] l IH]; [done| |].
  - rewrite filter_cons_False by (cbn; tauto). done.
  - rewrite filter_cons_True by (cbn; tauto). simpl. by f_equal.
Qed.

Lemma arg_refs_Ref hs : arg_refs (Ref <$> hs) = h_node <$> hs.
Proof. induction hs as [|h hs IH]; simpl; [done|by f_equal]. Qed.

Lemma arg_refs_Lit vs : arg_refs (Lit <$> vs) = [].
Proof. induction vs as [|v vs IH]; simpl; done. Qed.

Lemma valid_arg_refs g l p :
  Forall (valid_arg g) l → p ∈ arg_refs l → p < length (nodes g).
Proof.
  induction 1 as [|[v|h] l Ha Hl IH]; simpl.
  - by intros ?%elem_of_nil.
  - done.
  - intros [->|?]%elem_of_cons; [by destruct Ha|auto].
Qed.

(** ** What [defer] does to the graph *)

Lemma defer_ok f l g :
  Forall (valid_arg g) l →
  defer f l g =
    Ok (mkHandle (graph_id g) (length (nodes g)),
        {| graph_id := graph_id g;
           nodes := nodes g ++ [mkNode f l];
           preds := preds g ++ [arg_refs l];
           succs := foldl (add_edge (length (nodes g))) (succs g ++ [[]]) (arg_refs l) |}).
Proof. intros H%check_args_None. unfold defer. by rewrite H. Qed.

Lemma defer_inv f l g h g' :
  defer f l g = Ok (h, g') →
  Forall (valid_arg g) l ∧
  h = mkHandle (graph_id g) (length (nodes g)) ∧
  graph_id g' = graph_id g ∧
  nodes g' = nodes g ++ [mkNode f l] ∧
  preds g' = preds g ++ [arg_refs l] ∧
  succs g' = foldl (add_edge (length (nodes g))) (succs g ++ [[]]) (arg_refs l).
Proof.
  unfold defer. destruct (check_args g l) eqn:E; [done|].
  intros [= <- <-]. by apply check_args_None in E.
Qed.

Lemma defer_total f l g :
  Forall (valid_arg g) l →
  ∃ g', defer f l g = Ok (mkHandle (graph_id g) (length (nodes g)), g') ∧
        graph_id g' = graph_id g ∧ nodes g' = nodes g ++ [mkNode f l].
Proof. intros H. eexists. split; [by apply defer_ok|done]. Qed.

(** A failed call has no graph to return: the caller keeps the one it had. *)
Lemma defer_err f l g :
  ¬ Forall (valid_arg g) l → ∃ e, defer f l g = Err e.
Proof.
  rewrite <- check_args_None. unfold defer.
  destruct (check_args g l); [eauto|done].
Qed.

(** ** Successor lists *)

Lemma add_edges_length n ps ss : length (foldl (add_edge n) ss ps) = length ss.
Proof.
  revert ss. induction ps as [|p ps IH]; intros ss; simpl; [done|].
  rewrite IH. apply length_alter.
Qed.

Lemma add_edges_lookup n ps ss q :
  foldl (add_edge n) ss ps !! q =
    (λ l, l ++ replicate (length (filter (λ p, p = q) ps)) n) <$> ss !! q.
Proof.
  revert ss. induction ps as [|p ps IH]; intros ss; simpl.
  - destruct (ss !! q); simpl; [|done]. by rewrite app_nil_r.
  - rewrite IH. unfold add_edge. rewrite list_lookup_alter.
    rewrite filter_cons. destruct (decide (p = q)) as [->|Hne].
    + destruct (ss !! q); simpl; [|done]. by rewrite <- app_assoc.
    + done.
Qed.

Lemma alter_snoc_sum (n p : nat) (ss : list (list nat)) :
  p < length ss →
  sum_list_with length (alter (λ l, l ++ [n]) p ss) = S (sum_list_with length ss).
Proof.
  revert p. induction ss as [|s ss IH]; intros p Hp; simpl in *; [lia|].
  destruct p as [|p]; simpl.
  - rewrite length_app. simpl. lia.
  - pose proof (IH p ltac:(lia)) as IHp. unfold alter in IHp. lia.
Qed.

Lemma add_edges_sum n ps ss :
  Forall (λ p, p < length ss) ps →
  sum_list_with length (foldl (add_edge n) ss ps) = sum_list_with length ss + length ps.
Proof.
  revert ss. induction ps as [|p ps IH]; intros ss Hps; simpl; [lia|].
  apply Forall_cons in Hps as [Hp Hps].
  rewrite IH.
  - unfold add_edge. rewrite alter_snoc_sum by done. lia.
  - unfold add_edge. by rewrite length_alter.
Qed.

(** ** Invariants of built graphs *)

Lemma filter_eq_length_0 (q : nat) (ps : list nat) :
  length (filter (λ p, p = q) ps) = 0 ↔ q ∉ ps.
Proof.
  induction ps as [|p ps IH].
  { split; [intros _; apply not_elem_of_nil|done]. }
  rewrite filter_cons, not_elem_of_cons. destruct (decide (p = q)); simpl.
  - split; [lia|]. intros []. congruence.
  - rewrite IH. split; [|by intros []]. intros. split; [congruence|done].
Qed.

Lemma wf_preds_length g : wf g → length (preds g) = length (nodes g).
Proof. intros [-> _ _ _ _]. apply length_fmap. Qed.

Lemma arg_refs_lt gid n l (p : nat) :
  Forall (λ a, match a with
               | Lit _ => True
               | Ref h => h_graph h = gid ∧ h_node h < n
               end) l →
  p ∈ arg_refs l → p < n.
Proof.
  induction 1 as [|[v|h] l Ha Hl IH]; simpl.
  - by intros ?%elem_of_nil.
  - done.
  - intros [->|?]%elem_of_cons; [by destruct Ha|auto].
Qed.

Lemma wf_back g n ps p : wf g → preds g !! n = Some ps → p ∈ ps → p < n.
Proof.
  intros Hwf Hn Hp. rewrite (wf_preds g Hwf), list_lookup_fmap in Hn.
  destruct (nodes g !! n) as [nd|] eqn:E; simplify_eq/=.
  apply (arg_refs_lt (graph_id g) n (args nd)); [|done].
  by apply (wf_args g Hwf).
Qed.

Lemma wf_new gid : wf (new_graph gid).
Proof.
  split; simpl; try done.
  intros p m. split; by intros ?%elem_of_nil.
Qed.

Lemma wf_defer g f l h g' : wf g → defer f l g = Ok (h, g') → wf g'.
Proof.
  intros Hwf (Hl & -> & Hid & Hn & Hp & Hs)%defer_inv.
  pose proof (wf_preds_length g Hwf) as Hlen.
  pose proof (wf_succs_length g Hwf) as Hslen.
  assert (Hrefs : ∀ p, p ∈ arg_refs l → p < length (nodes g)).
  { intros p. by apply valid_arg_refs. }
  split.
  - rewrite Hp, Hn, fmap_app. by rewrite <- (wf_preds g Hwf).
  - intros n nd. rewrite Hn, Hid. intros [Hlk|[Hge Hlk]]%lookup_app_Some.
    + by apply (wf_args g Hwf).
    + apply list_lookup_singleton_Some in Hlk as [Hz <-]. simpl.
      assert (n = length (nodes g)) as -> by lia.
      eapply Forall_impl; [exact Hl|]. by intros [v|a].
  - rewrite Hs, Hn, add_edges_length, !length_app, Hslen. done.
  - intros p m. rewrite Hs, Hp, add_edges_lookup.
    destruct (decide (p < length (nodes g))) as [Hlt|Hge].
    + rewrite lookup_app_l by lia.
      destruct (succs g !! p) as [ss|] eqn:Ess;
        [|apply lookup_ge_None in Ess; lia].
      simpl. rewrite elem_of_app, elem_of_replicate, filter_eq_length_0.
      pose proof (wf_succs g Hwf p m) as Hpm. rewrite Ess in Hpm. simpl in Hpm.
      destruct (decide (m < length (nodes g))) as [Hm|Hm].
      * rewrite lookup_app_l by lia. rewrite Hpm. split; [|by left].
        intros [?|[-> _]]; [done|lia].
      * assert (m ∉ ss) as Hnot.
        { rewrite Hpm, lookup_ge_None_2 by lia. simpl. apply not_elem_of_nil. }
        destruct (decide (m = length (nodes g))) as [->|Hne].
        -- rewrite lookup_app_r, Hlen, Nat.sub_diag by lia. simpl.
           split; [intros [?|[_ Hin]]; [done|]|].
           ++ by destruct (decide (p ∈ arg_refs l)).
           ++ intros Hin. right. split; [done|]. by intros [].
        -- rewrite lookup_ge_None_2 by (rewrite length_app; simpl; lia). simpl.
           split; [intros [?|[-> _]]; done|by intros ?%elem_of_nil].
    + assert (default [] (((λ l0, l0 ++ replicate
                (length (filter (λ p0, p0 = p) (arg_refs l))) (length (nodes g))) <$>
                (succs g ++ [[]]) !! p)) = []) as ->.
      { destruct (decide (p = length (nodes g))) as [->|Hne].
        - rewrite lookup_app_r, Hslen, Nat.sub_diag by lia. simpl.
          assert (length (filter (λ p0, p0 = length (nodes g)) (arg_refs l)) = 0) as ->; [|done].
          apply filter_eq_length_0. intros Hin%Hrefs. lia.
        - by rewrite lookup_ge_None_2 by (rewrite length_app; simpl; lia). }
      split; [by intros ?%elem_of_nil|]. intros Hin. exfalso.
      destruct ((preds g ++ [arg_refs l]) !! m) as [ps|] eqn:Em;
        [|by apply elem_of_nil in Hin].
      simpl in Hin. apply lookup_app_Some in Em as [Em|[_ Em]].
      * pose proof (wf_back g m ps p Hwf Em Hin).
        apply lookup_lt_Some in Em. lia.
      * apply list_lookup_singleton_Some in Em as [_ <-].
        apply Hrefs in Hin. lia.
  - rewrite Hs, Hp, add_edges_sum.
    + rewrite !sum_list_with_app. simpl. rewrite (wf_out_in g Hwf). lia.
    + apply Forall_forall. intros p Hin%Hrefs. rewrite length_app. simpl. lia.
Qed.

Lemma built_wf g : built g → wf g.
Proof.
  induction 1 as [gid|g f l h g' _ IH Hd]; [apply wf_new|by eapply wf_defer].
Qed.

(** ** Edge count *)

Lemma edges_length_aux {A} (f : nat → nat → A) (ss : list (list nat)) :
  length (mjoin (imap (λ p l, f p <$> l) ss)) = sum_list_with length ss.
Proof.
  revert f. induction ss as [|l ss IH]; intros f; simpl; [done|].
  rewrite length_app, length_fmap. f_equal. apply (IH (λ p, f (S p))).
Qed.

Lemma edgeCount_out_degree g : edgeCount g = sum_list_with length (succs g).
Proof. apply (edges_length_aux (λ p n, (p, n))). Qed.

Lemma sum_list_with_fmap {A B} (f : B → nat) (h : A → B) (l : list A) :
  sum_list_with f (h <$> l) = sum_list_with (λ x, f (h x)) l.
Proof. induction l as [|x l IH]; csimpl; [done|by rewrite IH]. Qed.

Lemma edgeCount_in_degree g : wf g → edgeCount g = sum_list_with length (preds g).
Proof. intros Hwf. by rewrite edgeCount_out_degree, (wf_out_in g Hwf). Qed.

Lemma sum_lengths_0 (P : list (list nat)) :
  sum_list_with length P = 0 ↔ Forall (λ ps, ps = []) P.
Proof.
  induction P as [|ps P IH]; simpl.
  - split; [constructor|done].
  - rewrite Forall_cons, <- IH. destruct ps as [|p ps]; simpl.
    + split; [by intros ->|by intros [_ ->]].
    + split; [lia|by intros [? _]].
Qed.

Lemma in_degree_handle_args (l : list TaskNode) :
  sum_list_with length ((λ nd, arg_refs (args nd)) <$> l) = sum_list_with handle_args l.
Proof.
  rewrite sum_list_with_fmap. induction l as [|nd l IH]; simpl; [done|].
  rewrite IH. unfold handle_args. by rewrite arg_refs_length.
Qed.

(** C3. In every graph built by [defer] calls, the number of edges is the
    sum, over the nodes, of the number of handle-valued arguments the node
    was created with; literal arguments add nothing. *)
Theorem edge_count_handle_args (g : TaskGraph) :
  built g → edgeCount g = sum_list_with handle_args (nodes g).
Proof.
  intros Hwf%built_wf. rewrite edgeCount_in_degree by done.
  rewrite (wf_preds g Hwf). apply in_degree_handle_args.
Qed.

(** ** Longest paths *)

Lemma longest_paths_snoc P ps :
  longest_paths (P ++ [ps]) = longest_paths P ++ [node_depth (longest_paths P) ps].
Proof. unfold longest_paths. by rewrite foldl_app. Qed.

Lemma longest_paths_length P : length (longest_paths P) = length P.
Proof.
  induction P as [|ps P IH] using rev_ind; [done|].
  rewrite longest_paths_snoc, !length_app, IH. done.
Qed.

Lemma longest_paths_prefix P Q n :
  n < length P → longest_paths (P ++ Q) !! n = longest_paths P !! n.
Proof.
  intros Hn. induction Q as [|q Q IH] using rev_ind.
  - by rewrite app_nil_r.
  - rewrite app_assoc, longest_paths_snoc, lookup_app_l; [done|].
    rewrite longest_paths_length, length_app. lia.
Qed.

Lemma node_depth_ext D D' ps :
  (∀ p, p ∈ ps → D !! p = D' !! p) → node_depth D ps = node_depth D' ps.
Proof.
  intros H. unfold node_depth. destruct ps as [|p ps]; [done|].
  do 2 f_equal. apply list_fmap_ext. intros i x Hx.
  rewrite H; [done|]. by eapply list_elem_of_lookup_2.
Qed.

Lemma wf_backward g : wf g → backward (preds g).
Proof. intros Hwf n ps p. by apply wf_back. Qed.

(** The recurrence of the dynamic programme, read on the finished table. *)
Lemma longest_paths_lookup P n ps :
  backward P → P !! n = Some ps →
  longest_paths P !! n = Some (node_depth (longest_paths P) ps).
Proof.
  intros Hb Hn. pose proof (lookup_lt_Some _ _ _ Hn) as Hlt.
  assert (P = (take n P ++ [ps]) ++ drop (S n) P) as HP.
  { rewrite <- app_assoc. simpl. by rewrite <- (take_drop_middle P n ps) at 1. }
  assert (length (take n P) = n) as Hlen by (rewrite length_take; lia).
  rewrite HP at 1. rewrite longest_paths_prefix by (rewrite length_app; simpl; lia).
  rewrite longest_paths_snoc, lookup_app_r by (rewrite longest_paths_length; lia).
  rewrite longest_paths_length, Hlen, Nat.sub_diag. simpl. f_equal.
  apply node_depth_ext. intros p Hp. pose proof (Hb n ps p Hn Hp) as Hpn.
  rewrite <- (take_drop n P) at 2. symmetry. apply longest_paths_prefix. lia.
Qed.

Lemma node_depth_0 D ps : node_depth D ps = 0 ↔ ps = [].
Proof. destruct ps; simpl; split; done. Qed.

Lemma node_depth_gt D ps p : p ∈ ps → default 0 (D !! p) < node_depth D ps.
Proof.
  intros Hp. destruct ps as [|q ps]; [by apply elem_of_nil in Hp|].
  unfold node_depth. apply Nat.lt_succ_r, max_list_elem_of_le.
  apply list_elem_of_fmap. eauto.
Qed.

Lemma max_list_le (l : list nat) m : (∀ x, x ∈ l → x ≤ m) → max_list l ≤ m.
Proof.
  induction l as [|x l IH]; intros H; simpl; [lia|].
  apply Nat.max_lub.
  - apply H. by left.
  - apply IH. intros y Hy. apply H. by right.
Qed.

Lemma node_depth_uniform D ps d :
  ps ≠ [] → (∀ p, p ∈ ps → default 0 (D !! p) = d) → node_depth D ps = S d.
Proof.
  intros Hne H. destruct ps as [|q ps]; [done|]. unfold node_depth. f_equal.
  apply Nat.le_antisymm.
  - apply max_list_le. intros x (p & -> & Hp)%list_elem_of_fmap. by rewrite H.
  - apply max_list_elem_of_le, list_elem_of_fmap. exists q. split; [|by left].
    symmetry. apply H. by left.
Qed.

Lemma depth_lookup g n ps :
  wf g → preds g !! n = Some ps → depth g n = node_depth (longest_from_root g) ps.
Proof.
  intros Hwf Hn. unfold depth, longest_from_root.
  by rewrite (longest_paths_lookup _ n ps (wf_backward g Hwf) Hn).
Qed.

Lemma depth_pred g n ps p :
  wf g → preds g !! n = Some ps → p ∈ ps → depth g p < depth g n.
Proof.
  intros Hwf Hn Hp. rewrite (depth_lookup g n ps) by done.
  by apply node_depth_gt.
Qed.

Lemma longest_from_root_length g :
  wf g → length (longest_from_root g) = length (nodes g).
Proof.
  intros Hwf. unfold longest_from_root.
  by rewrite longest_paths_length, (wf_preds_length g Hwf).
Qed.

Lemma depth_le_max g n : depth g n ≤ max_list (longest_from_root g).
Proof.
  unfold depth. destruct (longest_from_root g !! n) as [d|] eqn:E; simpl; [|lia].
  apply max_list_elem_of_le. by eapply list_elem_of_lookup_2.
Qed.

(** The longest path ends in a node without successors, so the maximum over
    the sinks is the maximum over all nodes. *)
Lemma criticalPathLength_max g :
  wf g → criticalPathLength g = max_list (longest_from_root g).
Proof.
  intros Hwf. apply Nat.le_antisymm.
  - apply max_list_le. intros x (n & -> & _)%list_elem_of_fmap. apply depth_le_max.
  - destruct (decide (longest_from_root g = [])) as [->|Hne]; [simpl; lia|].
    apply max_list_elem_of, list_elem_of_lookup in Hne as [n Hn].
    pose proof (lookup_lt_Some _ _ _ Hn) as Hlt.
    unfold longest_from_root in Hlt.
    rewrite longest_paths_length, (wf_preds_length g Hwf) in Hlt.
    assert (depth g n = max_list (longest_from_root g)) as Hd.
    { unfold depth. by rewrite Hn. }
    rewrite <- Hd. apply max_list_elem_of_le, list_elem_of_fmap.
    exists n. split; [done|]. apply list_elem_of_filter. split.
    + destruct (succs g !! n) as [[|m ss]|] eqn:Es; [done| |].
      * exfalso. pose proof (wf_succs g Hwf n m) as Hm. rewrite Es in Hm.
        simpl in Hm. assert (n ∈ default [] (preds g !! m)) as Hin.
        { apply Hm. by left. }
        destruct (preds g !! m) as [ps|] eqn:Ep; [|by apply elem_of_nil in Hin].
        pose proof (depth_pred g m ps n Hwf Ep Hin).
        pose proof (depth_le_max g m). lia.
      * apply lookup_ge_None in Es. rewrite (wf_succs_length g Hwf) in Es. lia.
    + apply elem_of_seq. lia.
Qed.

Lemma isolated_iff g : wf g → isolated g ↔ edgeCount g = 0.
Proof.
  intros Hwf. rewrite edgeCount_in_degree, sum_lengths_0, Forall_lookup by done.
  unfold isolated, vertexCount. split.
  - intros H n ps Hn. pose proof (lookup_lt_Some _ _ _ Hn) as Hlt.
    rewrite (wf_preds_length g Hwf) in Hlt. destruct (H n Hlt) as [Hp _]. congruence.
  - intros H n Hn. assert (Hs : sum_list_with length (succs g) = 0).
    { rewrite (wf_out_in g Hwf). apply sum_lengths_0, Forall_lookup, H. }
    rewrite sum_lengths_0, Forall_lookup in Hs.
    rewrite <- (wf_preds_length g Hwf) in Hn.
    destruct (lookup_lt_is_Some_2 (preds g) n Hn) as [ps Hps].
    rewrite (wf_preds_length g Hwf), <- (wf_succs_length g Hwf) in Hn.
    destruct (lookup_lt_is_Some_2 (succs g) n Hn) as [ss Hss].
    rewrite Hps, Hss. by rewrite (H n ps Hps), (Hs n ss Hss).
Qed.

(** C7. The critical-path length of a graph is never negative, and it is 0
    exactly when the graph has no edges, that is when it consists of
    disconnected single nodes. *)
Theorem critical_path_zero_iff_no_edges (g : TaskGraph) :
  built g →
  0 ≤ criticalPathLength g ∧
  (criticalPathLength g = 0 ↔ edgeCount g = 0) ∧
  (criticalPathLength g = 0 ↔ isolated g).
Proof.
  intros Hwf%built_wf.
  assert (criticalPathLength g = 0 ↔ edgeCount g = 0) as Hiff.
  { rewrite criticalPathLength_max, edgeCount_in_degree, sum_lengths_0 by done.
    rewrite Forall_lookup. split.
    - intros Hmax n ps Hn. apply (node_depth_0 (longest_from_root g)).
      rewrite <- (depth_lookup g n ps) by done.
      pose proof (depth_le_max g n). lia.
    - intros Hall. apply Nat.le_antisymm; [|lia]. apply max_list_le.
      intros d [n Hn]%list_elem_of_lookup.
      pose proof (lookup_lt_Some _ _ _ Hn) as Hlt. unfold longest_from_root in Hlt.
      rewrite longest_paths_length in Hlt.
      destruct (lookup_lt_is_Some_2 (preds g) n Hlt) as [ps Hps].
      pose proof (depth_lookup g n ps Hwf Hps) as Hd. unfold depth in Hd.
      rewrite Hn, (Hall n ps Hps) in Hd. simpl in Hd. lia. }
  split; [lia|]. split; [done|]. by rewrite isolated_iff.
Qed.

(** ** Graphs that grow by a level of nodes *)

Lemma longest_paths_level P Q lv :
  Forall (λ q, node_depth (longest_paths P) q = lv ∧ Forall (λ p, p < length P) q) Q →
  longest_paths (P ++ Q) = longest_paths P ++ replicate (length Q) lv.
Proof.
  induction Q as [|q Q IH] using rev_ind; intros HQ.
  - simpl. by rewrite !app_nil_r.
  - apply Forall_app in HQ as [HQ [[Hq Hlt] _]%Forall_cons].
    rewrite app_assoc, longest_paths_snoc, IH by done.
    rewrite length_app. cbn [length]. rewrite Nat.add_1_r, replicate_S_end, app_assoc.
    f_equal. f_equal. rewrite <- IH by done. rewrite <- Hq. apply node_depth_ext.
    intros p Hp. apply longest_paths_prefix. by eapply Forall_forall in Hlt.
Qed.

Lemma max_list_app (l k : list nat) : max_list (l ++ k) = max_list l `max` max_list k.
Proof. induction l as [|x l IH]; simpl; [done|]. rewrite IH. lia. Qed.

Lemma max_list_replicate n (x : nat) : n ≠ 0 → max_list (replicate n x) = x.
Proof.
  induction n as [|n IH]; [done|]. intros _. simpl.
  destruct n; [simpl; lia|]. rewrite IH by done. lia.
Qed.

Lemma new_handles_length g n : length (new_handles g n) = n.
Proof. unfold new_handles. by rewrite length_fmap, length_seq. Qed.

Lemma new_handles_nodes g n : h_node <$> new_handles g n = seq (length (nodes g)) n.
Proof.
  unfold new_handles. rewrite <- list_fmap_compose.
  rewrite <- (list_fmap_id (seq _ _)) at 2. by apply list_fmap_ext.
Qed.

Lemma new_handles_S g f l h g' n :
  defer f l g = Ok (h, g') → new_handles g (S n) = h :: new_handles g' n.
Proof.
  intros (_ & -> & Hid & Hn & _)%defer_inv. unfold new_handles.
  rewrite Hid, Hn, length_app. simpl. by rewrite Nat.add_1_r.
Qed.

Lemma valid_arg_mono g g' a :
  graph_id g' = graph_id g → length (nodes g) ≤ length (nodes g') →
  valid_arg g a → valid_arg g' a.
Proof. intros Hid Hlen. destruct a as [v|h]; simpl; [done|]. rewrite Hid. lia. Qed.

Lemma new_handles_valid g g' n :
  graph_id g' = graph_id g → length (nodes g') = length (nodes g) + n →
  Forall (valid_arg g') (Ref <$> new_handles g n).
Proof.
  intros Hid Hlen. apply Forall_fmap, Forall_fmap, Forall_forall.
  intros i [_ Hi]%elem_of_seq. simpl. split; [done|lia].
Qed.

(** ** The merge recipe *)

Lemma list_comp_defer f (xs : list Z) g :
  built g →
  ∃ g', list_comp (λ x, defer f [Lit x]) xs g = Ok (new_handles g (length xs), g') ∧
        built g' ∧ graph_id g' = graph_id g ∧
        nodes g' = nodes g ++ ((λ x, mkNode f [Lit x]) <$> xs).
Proof.
  revert g. induction xs as [|x xs IH]; intros g Hb.
  - exists g. simpl. by rewrite app_nil_r.
  - destruct (defer_total f [Lit x] g) as (g1 & Hd & Hid1 & Hn1); [by repeat constructor|].
    pose proof (built_defer _ _ _ _ _ Hb Hd) as Hb1.
    destruct (IH _ Hb1) as (g' & Hc & Hb' & Hid' & Hn').
    exists g'. split_and!; [|done|congruence|].
    + cbn [list_comp]. rewrite (bind_ok _ _ _ _ _ Hd), (bind_ok _ _ _ _ _ Hc).
      unfold ret. cbn [length]. by rewrite (new_handles_S _ _ _ _ _ _ Hd).
    + rewrite Hn', Hn1, <- app_assoc. done.
Qed.

Lemma bench_merge_spec count g :
  built g →
  ∃ g', bench_merge count g = Ok (mkHandle (graph_id g) (length (nodes g) + count), g') ∧
        built g' ∧ graph_id g' = graph_id g ∧
        nodes g' = nodes g ++ ((λ x, mkNode do_something [Lit x]) <$> range count)
                           ++ [mkNode merge (Ref <$> new_handles g count)].
Proof.
  intros Hb. destruct (list_comp_defer do_something (range count) g Hb)
    as (g1 & Hc & Hb1 & Hid1 & Hn1).
  assert (length (range count) = count) as Hlen.
  { unfold range. by rewrite length_fmap, length_seq. }
  rewrite Hlen in Hc.
  assert (length (nodes g1) = length (nodes g) + count) as Hl1.
  { rewrite Hn1, length_app, length_fmap, Hlen. done. }
  destruct (defer_total merge (Ref <$> new_handles g count) g1
              (new_handles_valid g g1 count Hid1 Hl1)) as (g2 & Hd & Hid2 & Hn2).
  exists g2. split_and!.
  - unfold bench_merge. rewrite (bind_ok _ _ _ _ _ Hc), (bind_ok _ _ _ _ _ Hd).
    unfold ret. by rewrite Hid1, Hl1.
  - by eapply built_defer.
  - congruence.
  - rewrite Hn2, Hn1, <- app_assoc. done.
Qed.




(** ** The tree recipe: one pass of the [for] loop *)

Lemma range_even_double m : range_even (2 * m) = (λ k, 2 * k) <$> seq 0 m.
Proof.
  unfold range_even. do 2 f_equal.
  rewrite Nat.mul_comm, Nat.div_add_l by done. simpl. lia.
Qed.

Lemma for_loop_from m : ∀ j L acc g,
  built g → Forall (valid_arg g) L → length L = 2 * (j + m) →
  ∃ g', for_loop ((λ k, 2 * k) <$> seq j m) L acc g
          = Ok (acc ++ (Ref <$> new_handles g m), g') ∧
        built g' ∧ graph_id g' = graph_id g ∧
        nodes g' = nodes g ++ pair_nodes (drop (2 * j) L).
Proof.
  induction m as [|m IH]; intros j L acc g Hb Hv Hlen.
  - exists g. rewrite drop_ge by lia. simpl. by rewrite !app_nil_r.
  - destruct (lookup_lt_is_Some_2 L (2 * j)) as [x Hx]; [lia|].
    destruct (lookup_lt_is_Some_2 L (2 * j + 1)) as [y Hy]; [lia|].
    assert (Forall (valid_arg g) [x; y]) as Hxy.
    { rewrite Forall_forall in Hv. repeat constructor; apply Hv;
        by eapply list_elem_of_lookup_2. }
    destruct (defer_total add [x; y] g Hxy) as (g1 & Hd & Hid1 & Hn1).
    pose proof (built_defer _ _ _ _ _ Hb Hd) as Hb1.
    destruct (IH (S j) L (acc ++ [Ref (mkHandle (graph_id g) (length (nodes g)))]) g1)
      as (g' & Hf & Hb' & Hid' & Hn'); [done| |lia|].
    { eapply Forall_impl; [exact Hv|]. intros a. apply valid_arg_mono; [done|].
      rewrite Hn1, length_app. lia. }
    exists g'. split_and!; [|done|congruence|].
    + cbn [seq fmap list_fmap for_loop]. rewrite Hx, Hy, (bind_ok _ _ _ _ _ Hd).
      rewrite Hf, (new_handles_S _ _ _ _ _ m Hd), <- app_assoc. done.
    + rewrite Hn', Hn1, <- app_assoc. do 2 f_equal.
      rewrite (drop_S L x (2 * j) Hx).
      replace (S (2 * j)) with (2 * j + 1) by lia.
      rewrite (drop_S L y (2 * j + 1) Hy).
      replace (S (2 * j + 1)) with (2 * S j) by lia. done.
Qed.

Lemma for_loop_spec L g m :
  built g → Forall (valid_arg g) L → length L = 2 * m →
  ∃ g', for_loop (range_even (length L)) L [] g = Ok (Ref <$> new_handles g m, g') ∧
        level_step g L g'.
Proof.
  intros Hb Hv Hlen. rewrite Hlen, range_even_double.
  destruct (for_loop_from m 0 L [] g Hb Hv) as (g' & Hf & Hb' & Hid & Hn); [lia|].
  exists g'. split; [exact Hf|]. split_and!; done.
Qed.

Lemma pair_nodes_length L m : length L = 2 * m → length (pair_nodes L) = m.
Proof.
  revert L. induction m as [|m IH]; intros L Hlen.
  - by destruct L.
  - destruct L as [|x [|y L]]; simpl in *; try lia. f_equal. apply IH. lia.
Qed.

(** ** The tree recipe: the [while] loop *)

(** A loop rule: an invariant [I k L g] on lists of length [2 ^ k] that every
    pass of the [for] loop carries from [S k] to [k] holds, at [k = 0], of
    the one-element list the loop returns. *)
Lemma while_loop_rule (I : nat → list Arg → TaskGraph → Prop) :
  (∀ k L g g', built g → Forall (valid_arg g) L → length L = 2 ^ S k →
     I (S k) L g → level_step g L g' →
     I k (Ref <$> new_handles g (2 ^ k)) g') →
  ∀ k fuel L g,
    k < fuel → built g → Forall (valid_arg g) L → length L = 2 ^ k → I k L g →
    ∃ a g', while_loop fuel L g = Ok ([a], g') ∧ built g' ∧
            graph_id g' = graph_id g ∧ valid_arg g' a ∧ I 0 [a] g'.
Proof.
  intros Hstep. induction k as [|k IH]; intros fuel L g Hfuel Hb Hv Hlen HI.
  - destruct L as [|a [|b L]]; simpl in Hlen; try lia.
    exists a, g. apply Forall_cons in Hv as [Ha _].
    split_and!; [|done..]. by destruct fuel.
  - destruct fuel as [|fuel]; [lia|].
    assert (length L = 2 * 2 ^ k) as Hlen2 by (rewrite Hlen; apply Nat.pow_succ_r').
    assert (1 ≤ 2 ^ k) as Hpos by (apply Nat.neq_0_lt_0, Nat.pow_nonzero; lia).
    destruct (for_loop_spec L g (2 ^ k) Hb Hv Hlen2) as (g1 & Hf & Hls).
    pose proof Hls as (Hb1 & Hid1 & Hn1).
    assert (length (nodes g1) = length (nodes g) + 2 ^ k) as Hl1.
    { by rewrite Hn1, length_app, (pair_nodes_length L (2 ^ k)). }
    destruct (IH fuel (Ref <$> new_handles g (2 ^ k)) g1) as (a & g' & Hw & ?);
      [lia|done|by apply new_handles_valid| |by eapply Hstep|].
    { by rewrite length_fmap, new_handles_length. }
    exists a, g'. split; [|split_and!; try tauto; by etrans; [apply H|]].
    cbn [while_loop]. rewrite bool_decide_true by lia.
    by rewrite (bind_ok _ _ _ _ _ Hf).
Qed.

(** ** The tree recipe: shape of the graph *)

Lemma filter_length_all {A} (P : A → Prop) `{∀ x, Decision (P x)} (l : list A) :
  Forall P l → length (filter P l) = length l.
Proof.
  induction 1 as [|x l Hx Hl IH]; [done|].
  rewrite filter_cons_True by done. simpl. by f_equal.
Qed.

Lemma filter_length_none {A} (P : A → Prop) `{∀ x, Decision (P x)} (l : list A) :
  Forall (λ x, ¬ P x) l → length (filter P l) = 0.
Proof.
  induction 1 as [|x l Hx Hl IH]; [done|]. by rewrite filter_cons_False.
Qed.

Lemma level_preds g L g' :
  level_step g L g' → wf g →
  preds g' = preds g ++ ((λ nd, arg_refs (args nd)) <$> pair_nodes L).
Proof.
  intros (Hb' & _ & Hn) Hwf. rewrite (wf_preds g' (built_wf g' Hb')), Hn, fmap_app.
  by rewrite <- (wf_preds g Hwf).
Qed.

(** The adjacency entries of one level, for arguments that all sit at the
    same level [lv]. *)
Lemma pair_preds_uniform g lv m : ∀ L,
  wf g → Forall (valid_arg g) L → length L = 2 * m →
  Forall (λ a, arg_level g a = lv) L →
  Forall (λ q, (node_depth (longest_from_root g) q = lv
                ∧ Forall (λ p, p < length (preds g)) q)
               ∧ (lv = 0 → q = []) ∧ (lv ≠ 0 → length q = 2))
         ((λ nd, arg_refs (args nd)) <$> pair_nodes L).
Proof.
  induction m as [|m IH]; intros L Hwf Hv Hlen Hlv.
  - destruct L; [constructor|done].
  - destruct L as [|x [|y L]]; simpl in Hlen; try lia.
    apply Forall_cons in Hv as [Hx [Hy Hv]%Forall_cons].
    apply Forall_cons in Hlv as [Lx [Ly Hlv]%Forall_cons].
    cbn [pair_nodes fmap list_fmap]. constructor; [|apply IH; [done..|lia|done]].
    rewrite (wf_preds_length g Hwf).
    destruct x as [vx|hx], y as [vy|hy]; simpl in *; try lia.
    + subst lv. split_and!; [done|constructor|done|done].
    + destruct Hx as [_ Hx], Hy as [_ Hy]. split_and!.
      * unfold depth in Lx, Ly. lia.
      * by repeat constructor.
      * lia.
      * done.
Qed.

Lemma tree_shape_init e gid :
  tree_shape e e (Lit <$> range (2 ^ e)) (new_graph gid).
Proof.
  pose proof (Nat.pow_le_mono_r 2 (e - 1) e ltac:(lia) ltac:(lia)).
  pose proof (Nat.pow_le_mono_r 2 e (S e) ltac:(lia) ltac:(lia)).
  unfold tree_shape, leafCount, internalCount. simpl preds.
  rewrite decide_True by done. split_and!; try done; simpl; try lia.
  apply Forall_fmap, Forall_true. intros v. simpl. lia.
Qed.

Lemma tree_shape_step e k L g g' :
  built g → Forall (valid_arg g) L → length L = 2 ^ S k →
  tree_shape e (S k) L g → level_step g L g' →
  tree_shape e k (Ref <$> new_handles g (2 ^ k)) g'.
Proof.
  intros Hb Hv Hlen (Hk & Hlp & Hleaf & Hint & Hsum & Hdeg & Hlv & Hd) Hls.
  pose proof (built_wf g Hb) as Hwf.
  assert (length L = 2 * 2 ^ k) as Hlen2 by (rewrite Hlen; apply Nat.pow_succ_r').
  pose proof (pair_preds_uniform g (e - S k) (2 ^ k) L Hwf Hv Hlen2 Hlv) as HQ.
  pose proof (level_preds g L g' Hls Hwf) as Hp.
  assert (length ((λ nd, arg_refs (args nd)) <$> pair_nodes L) = 2 ^ k) as HlQ.
  { by rewrite length_fmap, (pair_nodes_length L (2 ^ k)). }
  set (Q := (λ nd, arg_refs (args nd)) <$> pair_nodes L) in *.
  assert (longest_from_root g' = longest_from_root g ++ replicate (2 ^ k) (e - S k)) as HD.
  { unfold longest_from_root. rewrite Hp, <- HlQ. apply longest_paths_level.
    eapply Forall_impl; [exact HQ|]. by intros q [? _]. }
  assert (∀ i, i ∈ seq (length (nodes g)) (2 ^ k) → depth g' i = e - S k) as Hnew.
  { intros i [Hi1 Hi2]%elem_of_seq. unfold depth.
    rewrite HD, lookup_app_r; rewrite (longest_from_root_length g Hwf); [|lia].
    by rewrite lookup_replicate_2 by lia. }
  assert (1 ≤ 2 ^ k) as Hpos by (apply Nat.neq_0_lt_0, Nat.pow_nonzero; lia).
  pose proof (Nat.pow_succ_r' 2 k) as Hpk.
  pose proof (Nat.pow_le_mono_r 2 (S k) e ltac:(lia) Hk) as Hke.
  unfold tree_shape, leafCount, internalCount in *. rewrite Hp.
  rewrite !filter_app, !length_app, sum_list_with_app, Hlp, Hint, Hsum, HlQ.
  destruct (decide (S k = e)) as [<-|Hne].
  - replace (S k - S k) with 0 in * by lia.
    replace (S k - 1) with k in * by lia. replace (S k - k) with 1 by lia.
    assert (Forall (λ q, q = []) Q) as Hnil.
    { eapply Forall_impl; [exact HQ|]. intros q (_ & Hq & _). by apply Hq. }
    rewrite (filter_length_all _ Q Hnil), HlQ.
    rewrite (filter_length_none (λ ps, ps ≠ []) Q)
      by (eapply Forall_impl; [exact Hnil|]; by intros q -> ?).
    replace (sum_list_with length Q) with 0
      by (symmetry; by apply sum_lengths_0).
    rewrite decide_False by lia.
    pose proof (Nat.pow_le_mono_r 2 (S k) (S (S k)) ltac:(lia) ltac:(lia)).
    split_and!; try lia.
    + apply Forall_app. split; [done|].
      eapply Forall_impl; [exact Hnil|]. by left.
    + apply Forall_fmap, Forall_fmap, Forall_forall. intros i Hi.
      simpl. rewrite (Hnew i Hi). lia.
    + rewrite HD. apply Forall_app. split.
      * eapply Forall_impl; [exact Hd|]. simpl. lia.
      * apply Forall_replicate. lia.
  - assert (S k ≤ e - 1) as Hk1 by lia.
    pose proof (Nat.pow_le_mono_r 2 (S k) (e - 1) ltac:(lia) Hk1) as Hke1.
    assert (2 ^ e = 2 * 2 ^ (e - 1)) as Hpe.
    { replace e with (S (e - 1)) at 1 by lia. apply Nat.pow_succ_r'. }
    pose proof (Nat.pow_succ_r' 2 (S k)) as Hpk2.
    assert (Forall (λ q, length q = 2) Q) as Htwo.
    { eapply Forall_impl; [exact HQ|]. intros q (_ & _ & Hq). apply Hq. lia. }
    rewrite (filter_length_none (λ ps, ps = []) Q)
      by (eapply Forall_impl; [exact Htwo|]; by intros q ? ->).
    rewrite (filter_length_all (λ ps, ps ≠ []) Q), HlQ
      by (eapply Forall_impl; [exact Htwo|]; by intros q ? ->).
    replace (sum_list_with length Q) with (2 * 2 ^ k).
    2:{ rewrite <- HlQ. clear -Htwo. induction Htwo as [|q Q Hq _ IH]; simpl; lia. }
    rewrite decide_False by lia.
    split_and!; try lia.
    + apply Forall_app. split; [done|].
      eapply Forall_impl; [exact Htwo|]. by right.
    + apply Forall_fmap, Forall_fmap, Forall_forall. intros i Hi.
      simpl. rewrite (Hnew i Hi). lia.
    + rewrite HD. apply Forall_app. split.
      * eapply Forall_impl; [exact Hd|]. simpl. lia.
      * apply Forall_replicate. lia.
Qed.

Lemma bench_tree_shape_aux e gid :
  ∃ a g, bench_tree e (new_graph gid) = Ok ([a], g) ∧ built g ∧
         valid_arg g a ∧ tree_shape e 0 [a] g.
Proof.
  pose proof (while_loop_rule (tree_shape e) (tree_shape_step e)) as Hrule.
  assert (length (Lit <$> range (2 ^ e)) = 2 ^ e) as Hlen.
  { unfold range. by rewrite !length_fmap, length_seq. }
  destruct (Hrule e (2 ^ e) (Lit <$> range (2 ^ e)) (new_graph gid))
    as (a & g & Hw & Hb & _ & Hv & Hs).
  - apply Nat.pow_gt_lin_r. lia.
  - constructor.
  - apply Forall_fmap, Forall_true. by intros v.
  - done.
  - apply tree_shape_init.
  - exists a, g. unfold bench_tree. by rewrite Hlen.
Qed.

(** C1, as worded, fails at exp = 3: the graph has 4 nodes without incoming
    edges, 3 with, 6 edges and a critical path of 2, not 8, 7, 14 and 3. *)
Lemma tree_scenario_fails :
  ∃ L g, bench_tree 3 (new_graph 0) = Ok (L, g) ∧
         leafCount g = 4 ∧ internalCount g = 3 ∧
         edgeCount g = 6 ∧ criticalPathLength g = 2 ∧
         ¬ tree_scenario 3 g.
Proof.
  eexists _, _. split; [vm_compute; reflexivity|].
  split_and!; try (vm_compute; reflexivity).
  intros (H & _). vm_compute in H. discriminate.
Qed.

(** ** The tree recipe: what it returns *)

Lemma tree_front_step e n0 k L g g' :
  built g → Forall (valid_arg g) L → length L = 2 ^ S k →
  tree_front e n0 (S k) L g → level_step g L g' →
  tree_front e n0 k (Ref <$> new_handles g (2 ^ k)) g'.
Proof.
  intros Hb Hv Hlen [Hn0 _] (Hb' & Hid & Hn).
  assert (length (nodes g') = length (nodes g) + 2 ^ k) as Hl.
  { rewrite Hn, length_app, (pair_nodes_length L (2 ^ k)); [done|].
    rewrite Hlen. apply Nat.pow_succ_r'. }
  split; [lia|]. intros Hk.
  split; [|lia]. unfold new_handles. rewrite Hid, Hl. do 3 f_equal. lia.
Qed.

Lemma bench_tree_front e g0 :
  built g0 →
  ∃ a g, bench_tree e g0 = Ok ([a], g) ∧ built g ∧ graph_id g = graph_id g0 ∧
         valid_arg g a ∧ tree_front e (length (nodes g0)) 0 [a] g.
Proof.
  intros Hb0.
  pose proof (while_loop_rule (tree_front e (length (nodes g0)))
                (tree_front_step e (length (nodes g0)))) as Hrule.
  assert (length (Lit <$> range (2 ^ e)) = 2 ^ e) as Hlen.
  { unfold range. by rewrite !length_fmap, length_seq. }
  destruct (Hrule e (2 ^ e) (Lit <$> range (2 ^ e)) g0)
    as (a & g & Hw & Hb & Hid & Hv & Hs).
  - apply Nat.pow_gt_lin_r. lia.
  - done.
  - apply Forall_fmap, Forall_true. by intros v.
  - done.
  - split; [done|]. intros Hlt. lia.
  - exists a, g. unfold bench_tree. by rewrite Hlen.
Qed.

(** ** One scheduling round *)

Lemma commit_fold_results rs g batch : ∀ acc k,
  results (foldl (λ acc n, commit g rs acc n) acc batch) !! k =
    match nodes g !! k with
    | Some nd => if decide (k ∈ batch) then Some (eval_node rs k nd) else results acc !! k
    | None => results acc !! k
    end.
Proof.
  induction batch as [|n batch IH]; intros acc k; cbn [foldl].
  - destruct (nodes g !! k); [|done]. rewrite decide_False; [done|apply not_elem_of_nil].
  - rewrite IH. unfold commit.
    destruct (nodes g !! k) as [nd|] eqn:Ek.
    + destruct (decide (k ∈ batch)) as [Hin|Hnin].
      * rewrite decide_True; [done|by right].
      * destruct (decide (k = n)) as [->|Hne].
        -- rewrite decide_True by (by left). rewrite Ek. simpl.
           by rewrite lookup_insert_eq.
        -- rewrite decide_False by (by intros [?|?]%elem_of_cons).
           destruct (nodes g !! n); [|done]. simpl. by rewrite lookup_insert_ne.
    + destruct (nodes g !! n) eqn:En; [|done]. simpl.
      rewrite lookup_insert_ne; [done|]. intros ->. congruence.
Qed.

Lemma commit_fold_trace rs g batch : ∀ acc,
  trace (foldl (λ acc n, commit g rs acc n) acc batch) =
    trace acc ++ filter (λ n, invokes g rs n) batch.
Proof.
  induction batch as [|n batch IH]; intros acc; simpl.
  - by rewrite app_nil_r.
  - rewrite IH, filter_cons. unfold commit, invokes.
    destruct (nodes g !! n) as [nd|]; simpl; [|done].
    destruct (invoked rs nd); simpl; [by rewrite <- app_assoc|by rewrite app_nil_r].
Qed.

Lemma exec_batch_results g st batch k :
  results (exec_batch g st batch) !! k =
    match nodes g !! k with
    | Some nd =>
        if decide (k ∈ batch) then Some (eval_node (results st) k nd)
        else results st !! k
    | None => results st !! k
    end.
Proof. apply commit_fold_results. Qed.

Lemma exec_batch_trace g st batch :
  trace (exec_batch g st batch) =
    trace st ++ filter (λ n, invokes g (results st) n) batch.
Proof. apply commit_fold_trace. Qed.

(** ** Argument values *)

Lemma gather_ext rs rs' l :
  (∀ p, p ∈ arg_refs l → rs !! p = rs' !! p) → gather rs l = gather rs' l.
Proof.
  induction l as [|[v|h] l IH]; intros H; simpl in *; [done| |].
  - by rewrite IH.
  - rewrite <- (H (h_node h)) by (by left).
    rewrite IH; [done|]. intros p Hp. apply H. by right.
Qed.

Lemma eval_node_ext rs rs' n nd :
  (∀ p, p ∈ arg_refs (args nd) → rs !! p = rs' !! p) →
  eval_node rs n nd = eval_node rs' n nd.
Proof. intros H. unfold eval_node. by rewrite (gather_ext rs rs'). Qed.

Lemma gather_Some rs l vs p :
  gather rs l = Some vs → p ∈ arg_refs l → ∃ v, rs !! p = Some (Success v).
Proof.
  revert vs. induction l as [|[v|h] l IH]; intros vs; simpl.
  - by intros _ ?%elem_of_nil.
  - destruct (gather rs l) as [ws|]; [|done]. intros _. by apply (IH ws).
  - destruct (rs !! h_node h) as [[w| |]|] eqn:E; try done.
    destruct (gather rs l) as [ws|]; [|done].
    intros _ [->|Hp]%elem_of_cons; [eauto|by apply (IH ws)].
Qed.

Lemma eval_node_invoked rs n nd :
  eval_node rs n nd ≠ DependencyFailedError ↔ invoked rs nd = true.
Proof.
  unfold eval_node, invoked. destruct (gather rs (args nd)) as [vs|].
  - rewrite bool_decide_true by eauto. destruct (call (callable nd) vs); done.
  - rewrite bool_decide_false by (by intros [? ?]). done.
Qed.

(** ** The reference pass *)

Lemma seq_run_S g m :
  seq_run g (S m) = exec_batch g (seq_run g m) [m].
Proof. unfold seq_run. by rewrite seq_S, foldl_app. Qed.

Lemma seq_run_results_S g m k :
  results (seq_run g (S m)) !! k =
    match nodes g !! m with
    | Some nd =>
        if decide (k = m) then Some (eval_node (results (seq_run g m)) m nd)
        else results (seq_run g m) !! k
    | None => results (seq_run g m) !! k
    end.
Proof.
  rewrite seq_run_S, exec_batch_results.
  destruct (decide (k = m)) as [->|Hne].
  - destruct (nodes g !! m); [|done]. rewrite decide_True; [done|by left].
  - destruct (nodes g !! k), (nodes g !! m); try done;
      rewrite decide_False; try done; by intros ?%list_elem_of_singleton.
Qed.

Lemma seq_run_None g m k : m ≤ k → results (seq_run g m) !! k = None.
Proof.
  induction m as [|m IH]; intros Hk; [done|].
  rewrite seq_run_results_S. rewrite IH by lia.
  destruct (nodes g !! m); [|done]. rewrite decide_False by lia. done.
Qed.

Lemma seq_run_stable g m m' k :
  k < m → m ≤ m' → results (seq_run g m') !! k = results (seq_run g m) !! k.
Proof.
  intros Hk. induction 1 as [|m' Hle IH]; [done|].
  rewrite seq_run_results_S, IH. destruct (nodes g !! m'); [|done].
  rewrite decide_False by lia. done.
Qed.

Lemma seq_run_prefix g g' m :
  (∀ n, n < m → nodes g' !! n = nodes g !! n) → seq_run g' m = seq_run g m.
Proof.
  induction m as [|m IH]; intros H; [done|].
  rewrite !seq_run_S, IH by (intros n Hn; apply H; lia).
  unfold exec_batch. simpl. unfold commit. by rewrite H by lia.
Qed.

Lemma value_of_None g n : length (nodes g) ≤ n → value_of g n = None.
Proof. apply seq_run_None. Qed.

(** The value of a node is its callable applied to the values of its
    arguments. *)
Lemma value_of_eval g n nd :
  wf g → nodes g !! n = Some nd →
  value_of g n = Some (eval_node (results (sequential g)) n nd).
Proof.
  intros Hwf Hn. pose proof (lookup_lt_Some _ _ _ Hn) as Hlt.
  unfold value_of, sequential.
  fold (seq_run g (length (nodes g))).
  rewrite (seq_run_stable g (S n)) by lia.
  rewrite seq_run_results_S, Hn, decide_True by done. f_equal.
  apply eval_node_ext. intros p Hp. symmetry. apply seq_run_stable; [|lia].
  apply (arg_refs_lt (graph_id g) n (args nd)); [|done]. by apply (wf_args g Hwf).
Qed.

(** Nodes created later do not change the value of a node. *)
Lemma value_of_extend g g' X n :
  nodes g' = nodes g ++ X → n < length (nodes g) → value_of g' n = value_of g n.
Proof.
  intros HX Hn. unfold value_of, sequential.
  fold (seq_run g' (length (nodes g'))) (seq_run g (length (nodes g))).
  rewrite (seq_run_stable g' (length (nodes g))); [|done|rewrite HX, length_app; lia].
  f_equal. f_equal. apply seq_run_prefix. intros k Hk. by rewrite HX, lookup_app_l.
Qed.

(** ** Schedules *)

Lemma pending_0 g st n :
  pending g st n = 0 ↔ ∀ p, p ∈ default [] (preds g !! n) → is_Some (results st !! p).
Proof.
  unfold pending. generalize (default [] (preds g !! n)) as ps.
  induction ps as [|q ps IH].
  - split; [by intros _ p ?%elem_of_nil|done].
  - rewrite filter_cons. destruct (decide (results st !! q = None)) as [Hq|Hq]; simpl.
    + split; [lia|]. intros H. destruct (H q) as [r Hr]; [by left|congruence].
    + rewrite IH. split.
      * intros H p [->|Hp]%elem_of_cons; [|by apply H].
        destruct (results st !! q); [eauto|done].
      * intros H p Hp. apply H. by right.
Qed.

Lemma runnable_preds g st n nd p :
  wf g → runnable g st n → nodes g !! n = Some nd → p ∈ arg_refs (args nd) →
  is_Some (results st !! p).
Proof.
  intros Hwf (_ & _ & Hpend) Hn Hp. rewrite pending_0 in Hpend. apply Hpend.
  by rewrite (wf_preds g Hwf), list_lookup_fmap, Hn.
Qed.

Lemma exec_inv_init g : exec_inv g init_state.
Proof.
  split; simpl.
  - intros n r. by rewrite lookup_empty.
  - constructor.
  - intros n. split; [by intros ?%elem_of_nil|]. intros (r & Hr & _).
    by rewrite lookup_empty in Hr.
  - intros i n ps p. by rewrite lookup_nil.
Qed.

Lemma exec_inv_step g st batch :
  wf g → exec_inv g st → NoDup batch → Forall (runnable g st) batch →
  exec_inv g (exec_batch g st batch).
Proof.
  intros Hwf [Hsound Hnodup Htrace Horder] Hbatch Hrun.
  rewrite Forall_forall in Hrun.
  assert (Heval : ∀ n nd, n ∈ batch → nodes g !! n = Some nd →
            value_of g n = Some (eval_node (results st) n nd)).
  { intros n nd Hin Hn. rewrite (value_of_eval g n nd Hwf Hn). f_equal.
    apply eval_node_ext. intros p Hp.
    destruct (runnable_preds g st n nd p Hwf (Hrun n Hin) Hn Hp) as [r Hr].
    rewrite Hr. by apply Hsound. }
  assert (Hnew : ∀ n, n ∈ filter (λ n, invokes g (results st) n) batch →
            n ∈ batch ∧ (n ∉ trace st) ∧
            ∃ nd, nodes g !! n = Some nd ∧ invoked (results st) nd = true).
  { intros n [Hinv Hin]%list_elem_of_filter. split; [done|]. split.
    - intros (r & Hr & _)%Htrace. destruct (Hrun n Hin) as (_ & Hnone & _). congruence.
    - unfold invokes in Hinv. destruct (nodes g !! n) as [nd|]; [|done].
      exists nd. split; [done|]. by destruct (invoked (results st) nd). }
  split.
  - intros n r. rewrite exec_batch_results.
    destruct (nodes g !! n) as [nd|] eqn:En; [|by apply Hsound].
    destruct (decide (n ∈ batch)) as [Hin|Hnin]; [|by apply Hsound].
    intros [= <-]. by apply Heval.
  - rewrite exec_batch_trace. apply NoDup_app. split_and!; [done| |by apply NoDup_filter].
    intros n Hn Hn'. by destruct (Hnew n Hn') as (_ & ? & _).
  - intros n. rewrite exec_batch_trace, elem_of_app, exec_batch_results. split.
    + intros [Hold|Hn'].
      * destruct (proj1 (Htrace n) Hold) as (r & Hr & Hne).
        destruct (nodes g !! n) as [nd|]; [|by eauto].
        rewrite decide_False; [by eauto|].
        intros Hin. destruct (Hrun n Hin) as (_ & Hnone & _). congruence.
      * destruct (Hnew n Hn') as (Hin & _ & nd & Hnd & Hinv).
        rewrite Hnd, decide_True by done. eexists. split; [done|].
        by apply eval_node_invoked.
    + intros (r & Hr & Hne). destruct (nodes g !! n) as [nd|] eqn:En.
      * destruct (decide (n ∈ batch)) as [Hin|Hnin].
        -- right. apply list_elem_of_filter. split; [|done].
           unfold invokes. rewrite En. injection Hr as <-.
           apply eval_node_invoked in Hne. by rewrite Hne.
        -- left. apply Htrace. eauto.
      * left. apply Htrace. eauto.
  - intros i n ps p. rewrite exec_batch_trace. intros Hi Hps Hp.
    apply lookup_app_Some in Hi as [Hi|[Hge Hi]].
    + destruct (Horder i n ps p Hi Hps Hp) as (j & Hj & Hjp).
      exists j. split; [done|]. by apply lookup_app_l_Some.
    + apply list_elem_of_lookup_2 in Hi.
      destruct (Hnew n Hi) as (Hin & _ & nd & Hnd & Hinv).
      unfold invoked in Hinv. apply bool_decide_eq_true in Hinv as [vs Hvs].
      assert (p ∈ arg_refs (args nd)) as Hp'.
      { rewrite (wf_preds g Hwf), list_lookup_fmap, Hnd in Hps. by simplify_eq/=. }
      destruct (gather_Some _ _ _ p Hvs Hp') as [v Hv].
      assert (p ∈ trace st) as [j Hj]%list_elem_of_lookup.
      { apply Htrace. by exists (Success v). }
      exists j. split; [|by apply lookup_app_l_Some].
      apply lookup_lt_Some in Hj. lia.
Qed.

Lemma exec_inv_execution g limit st :
  wf g → execution g limit st → exec_inv g st.
Proof.
  intros Hwf Hex. unfold execution in Hex. revert st Hex.
  apply (rtc_ind_r (λ st, exec_inv g st)).
  - apply exec_inv_init.
  - intros st st' _ [st0 batch (_ & Hnd & _ & Hrun)] IH. by apply exec_inv_step.
Qed.

(** A complete pass agrees with the reference pass on every slot. *)
Lemma complete_results g st :
  exec_inv g st → complete g st → ∀ n, results st !! n = value_of g n.
Proof.
  intros Hinv Hc n. destruct (decide (n < length (nodes g))) as [Hlt|Hge].
  - destruct (Hc n Hlt) as [r Hr]. rewrite Hr. symmetry. by apply (inv_sound g st Hinv).
  - destruct (results st !! n) as [r|] eqn:E.
    + symmetry. by apply (inv_sound g st Hinv).
    + symmetry. apply value_of_None. lia.
Qed.

(** ** The scheduler *)

(** While a node is unresolved some node is runnable: graphs built by
    [defer] have no cycle. *)
Lemma progress g st n :
  wf g → n < length (nodes g) → results st !! n = None → ∃ m, runnable g st m.
Proof.
  intros Hwf. induction n as [n IH] using lt_wf_ind. intros Hn Hnone.
  destruct (decide (pending g st n = 0)) as [H0|Hpos]; [by exists n|].
  unfold pending in Hpos.
  destruct (filter (λ p, results st !! p = None) (default [] (preds g !! n)))
    as [|p l] eqn:E; [done|].
  assert (p ∈ filter (λ p, results st !! p = None) (default [] (preds g !! n)))
    as [Hp Hin]%list_elem_of_filter by (rewrite E; by left).
  destruct (preds g !! n) as [ps|] eqn:Eps; [|by apply elem_of_nil in Hin].
  pose proof (wf_back g n ps p Hwf Eps Hin). apply (IH p); [done|lia|done].
Qed.

Lemma elem_of_ready g st n : n ∈ ready g st ↔ runnable g st n.
Proof.
  unfold ready. rewrite list_elem_of_filter, elem_of_seq. split; [by intros [? _]|].
  intros Hr. split; [done|]. destruct Hr as [? _]. lia.
Qed.

Lemma elem_of_unresolved g st n :
  n ∈ unresolved g st ↔ results st !! n = None ∧ n < length (nodes g).
Proof. unfold unresolved. rewrite list_elem_of_filter, elem_of_seq. split; intros []; split; done || lia. Qed.

Lemma ready_batch_valid g limit st b batch :
  take (Pos.to_nat limit) (ready g st) = b :: batch →
  valid_batch g limit st (b :: batch).
Proof.
  intros Ht. split_and!.
  - done.
  - rewrite <- Ht. eapply sublist_NoDup; [|apply sublist_take].
    apply NoDup_filter, NoDup_seq.
  - rewrite <- Ht, length_take. lia.
  - apply Forall_forall. intros n Hn. apply elem_of_ready.
    rewrite <- Ht in Hn. by apply (subseteq_take (Pos.to_nat limit)).
Qed.

Lemma exec_batch_unresolved g st b batch :
  Forall (runnable g st) (b :: batch) →
  length (unresolved g (exec_batch g st (b :: batch))) < length (unresolved g st).
Proof.
  intros [Hb _]%Forall_cons. destruct Hb as (Hlt & Hnone & _).
  destruct (lookup_lt_is_Some_2 (nodes g) b Hlt) as [nd Hnd].
  unfold unresolved.
  rewrite <- (list_filter_filter_l
                (λ n, results (exec_batch g st (b :: batch)) !! n = None)
                (λ n, results st !! n = None)).
  - apply (length_filter_lt _ _ b).
    + apply elem_of_unresolved. done.
    + rewrite exec_batch_results, Hnd, decide_True by (by left). done.
  - intros n. rewrite exec_batch_results. destruct (nodes g !! n); [|done].
    by destruct (decide (n ∈ b :: batch)).
Qed.

Lemma schedule_total g limit : ∀ fuel st,
  wf g → length (unresolved g st) ≤ fuel →
  ∃ st', schedule fuel g limit st = Ok st' ∧
         rtc (exec_step g limit) st st' ∧ unresolved g st' = [].
Proof.
  induction fuel as [|fuel IH]; intros st Hwf Hfuel.
  - exists st. assert (unresolved g st = []) as Hnil.
    { destruct (unresolved g st); [done|simpl in Hfuel; lia]. }
    simpl. rewrite bool_decide_true by done. done.
  - destruct (decide (unresolved g st = [])) as [Hnil|Hne].
    { exists st. simpl. rewrite bool_decide_true by done. done. }
    cbn [schedule]. rewrite bool_decide_false by done.
    destruct (unresolved g st) as [|n l] eqn:Eu; [done|].
    assert (n ∈ unresolved g st) as [Hnone Hlt]%elem_of_unresolved
      by (rewrite Eu; by left).
    destruct (progress g st n Hwf Hlt Hnone) as [m Hm%elem_of_ready].
    destruct (take (Pos.to_nat limit) (ready g st)) as [|b batch] eqn:Et.
    { apply take_nil_inv in Et as [Hz|Hr]; [lia|]. rewrite Hr in Hm.
      by apply elem_of_nil in Hm. }
    pose proof (ready_batch_valid g limit st b batch Et) as Hvb.
    pose proof Hvb as (_ & _ & _ & Hrun).
    pose proof (exec_batch_unresolved g st b batch Hrun) as Hless.
    rewrite Eu in Hless.
    destruct (IH (exec_batch g st (b :: batch)) Hwf) as (st' & Hs & Hrtc & Hdone).
    { simpl in Hfuel, Hless. lia. }
    exists st'. split_and!; [done| |done].
    eapply rtc_l; [|exact Hrtc]. by constructor.
Qed.

(** The scheduler returns for every built graph, whatever the callables do,
    and its pass is one of the schedules. *)
Lemma execute_total g limit :
  wf g → ∃ st, execute g limit = Ok st ∧ execution g limit st ∧ complete g st.
Proof.
  intros Hwf. destruct (schedule_total g limit (length (nodes g)) init_state Hwf)
    as (st & Hs & Hrtc & Hdone).
  { unfold unresolved. etrans; [apply length_filter|]. by rewrite length_seq. }
  exists st. split_and!; [done|done|].
  intros n Hn. destruct (results st !! n) as [r|] eqn:E; [by eauto|].
  assert (n ∈ unresolved g st) as Hin by (by apply elem_of_unresolved).
  rewrite Hdone in Hin. by apply elem_of_nil in Hin.
Qed.

Lemma execute_sound g limit st :
  wf g → execute g limit = Ok st → execution g limit st ∧ complete g st.
Proof.
  intros Hwf He. destruct (execute_total g limit Hwf) as (st' & He' & ? & ?).
  rewrite He in He'. by injection He' as ->.
Qed.

Lemma execute_results g limit st n :
  wf g → execute g limit = Ok st → results st !! n = value_of g n.
Proof.
  intros Hwf [Hex Hc]%execute_sound; [|done].
  apply complete_results; [|done]. by eapply exec_inv_execution.
Qed.

Lemma run_spec g ts limit :
  wf g → Forall (valid_arg g) (Ref <$> ts) →
  run g ts limit = Ok (omap (λ t, (λ r, (t, r)) <$> value_of g (h_node t)) ts).
Proof.
  intros Hwf Hv%check_args_None. unfold run. rewrite Hv.
  destruct (execute_total g limit Hwf) as (st & He & _). rewrite He. f_equal.
  apply list_omap_ext, Forall2_same_length_lookup. split; [done|].
  intros i t t' Ht Ht'. assert (t' = t) as -> by congruence.
  by rewrite (execute_results g limit st _ Hwf He).
Qed.

Lemma run_limit_irrelevant g ts l1 l2 : wf g → run g ts l1 = run g ts l2.
Proof.
  intros Hwf. unfold run. destruct (check_args g (Ref <$> ts)); [done|].
  destruct (execute_total g l1 Hwf) as (st1 & He1 & _).
  destruct (execute_total g l2 Hwf) as (st2 & He2 & _).
  rewrite He1, He2. f_equal.
  apply list_omap_ext, Forall2_same_length_lookup. split; [done|].
  intros i t t' Ht Ht'. assert (t' = t) as -> by congruence.
  by rewrite (execute_results g l1 st1 _ Hwf He1), (execute_results g l2 st2 _ Hwf He2).
Qed.

(** ** Builder programmes keep the graph built *)

Lemma preserves_built_defer f l : preserves_built (defer f l).
Proof. intros g h g' Hb Hd. by eapply built_defer. Qed.

Lemma preserves_built_ret {A} (a : A) : preserves_built (ret a).
Proof. intros g b g' Hb [= _ <-]. done. Qed.

Lemma preserves_built_bind {A B} (m : Builder A) (k : A → Builder B) :
  preserves_built m → (∀ a, preserves_built (k a)) → preserves_built (bind m k).
Proof.
  intros Hm Hk g b g' Hb. unfold bind.
  destruct (m g) as [[a g1]|e] eqn:E; [|done].
  intros Hkb. eapply Hk; [|exact Hkb]. by eapply Hm.
Qed.

Lemma preserves_built_list_comp {A B} (f : A → Builder B) xs :
  (∀ x, preserves_built (f x)) → preserves_built (list_comp f xs).
Proof.
  intros Hf. induction xs as [|x xs IH]; simpl.
  - apply preserves_built_ret.
  - apply preserves_built_bind; [done|]. intros y.
    apply preserves_built_bind; [done|]. intros ys. apply preserves_built_ret.
Qed.

Lemma preserves_built_bench_merge count : preserves_built (bench_merge count).
Proof.
  unfold bench_merge. apply preserves_built_bind.
  - apply preserves_built_list_comp. intros x. apply preserves_built_defer.
  - intros xs. apply preserves_built_bind; [apply preserves_built_defer|].
    intros r. apply preserves_built_ret.
Qed.

Lemma preserves_built_chain fa la fb fc : preserves_built (chain fa la fb fc).
Proof.
  unfold chain. repeat (apply preserves_built_bind; [apply preserves_built_defer|intros ?]).
  apply preserves_built_ret.
Qed.


Lemma preserves_built_for_loop idx L : ∀ acc, preserves_built (for_loop idx L acc).
Proof.
  induction idx as [|i idx IH]; intros acc; simpl.
  - apply preserves_built_ret.
  - destruct (L !! i) as [x|]; [|by intros g a g' _ ?].
    destruct (L !! (i + 1)) as [y|]; [|by intros g a g' _ ?].
    apply preserves_built_bind; [apply preserves_built_defer|]. intros h. apply IH.
Qed.

Lemma preserves_built_while_loop fuel : ∀ L, preserves_built (while_loop fuel L).
Proof.
  induction fuel as [|fuel IH]; intros L; simpl;
    destruct (bool_decide (1 < length L)); try apply preserves_built_ret.
  - by intros g a g' _ ?.
  - apply preserves_built_bind; [apply preserves_built_for_loop|]. intros L'. apply IH.
Qed.

Lemma preserves_built_bench_tree exp : preserves_built (bench_tree exp).
Proof. apply preserves_built_while_loop. Qed.

Lemma graph_of_built {A} (m : Builder A) gid :
  preserves_built m → built (graph_of m gid).
Proof.
  intros Hm. unfold graph_of. destruct (m (new_graph gid)) as [[a g]|e] eqn:E.
  - eapply Hm; [|exact E]. constructor.
  - constructor.
Qed.

(** ** Memoization and ordering *)

Lemma gather_is_Some rs l :
  is_Some (gather rs l) ↔ ∀ p, p ∈ arg_refs l → ∃ v, rs !! p = Some (Success v).
Proof.
  split.
  - intros [vs Hvs] p Hp. by eapply gather_Some.
  - induction l as [|[v|h] l IH]; intros H; simpl in *.
    + by eexists.
    + destruct IH as [vs ->]; [done|]. by eexists.
    + destruct (H (h_node h)) as [v ->]; [by left|].
      destruct IH as [vs ->]; [|by eexists]. intros p Hp. apply H. by right.
Qed.

Lemma filter_eq_NoDup (l : list nat) (n : nat) :
  NoDup l → length (filter (λ m, m = n) l) = if decide (n ∈ l) then 1 else 0.
Proof.
  induction 1 as [|x l Hx Hl IH].
  - rewrite decide_False; [done|apply not_elem_of_nil].
  - rewrite filter_cons. destruct (decide (x = n)) as [->|Hne].
    + rewrite decide_True by (by left). simpl. rewrite IH.
      by rewrite decide_False.
    + rewrite IH. destruct (decide (n ∈ l)) as [Hin|Hnin].
      * rewrite decide_True; [done|by right].
      * rewrite decide_False; [done|]. intros [?|?]%elem_of_cons; congruence.
Qed.

Lemma state_of_execute g limit :
  wf g → execution g limit (state_of (execute g limit))
         ∧ complete g (state_of (execute g limit)).
Proof. intros Hwf. destruct (execute_total g limit Hwf) as (st & -> & ? & ?). done. Qed.




(** ** Determinism *)

(** C6. For a fixed graph whose callables do not fail, any two complete
    passes, whatever the order in which runnable nodes are picked and
    whatever the concurrency limits, give every node, hence every terminal,
    the same result value; [run] returns the same mapping for any limit. *)
Theorem execution_deterministic
    (g : TaskGraph) (l1 l2 : positive) (st1 st2 : ExecState) :
  built g → failure_free g →
  execution g l1 st1 → complete g st1 →
  execution g l2 st2 → complete g st2 →
  results st1 = results st2 ∧
  (∀ t, t < length (nodes g) →
        ∃ v, results st1 !! t = Some (Success v) ∧ results st2 !! t = Some (Success v)) ∧
  (∀ ts, run g ts l1 = run g ts l2).
Proof.
  intros Hwf%built_wf Hff Hex1 Hc1 Hex2 Hc2.
  pose proof (complete_results g st1 (exec_inv_execution g l1 st1 Hwf Hex1) Hc1) as H1.
  pose proof (complete_results g st2 (exec_inv_execution g l2 st2 Hwf Hex2) Hc2) as H2.
  split_and!.
  - apply map_eq. intros n. by rewrite H1, H2.
  - intros t Ht. destruct (Hff t Ht) as [v Hv]. exists v. by rewrite H1, H2.
  - intros ts. by apply run_limit_irrelevant.
Qed.

Lemma execution_deterministic_tree :
  (built (graph_of (bench_tree 2) 0) ∧
   failure_free (graph_of (bench_tree 2) 0) ∧
   execution (graph_of (bench_tree 2) 0) 1 (state_of (execute (graph_of (bench_tree 2) 0) 1)) ∧
   complete (graph_of (bench_tree 2) 0) (state_of (execute (graph_of (bench_tree 2) 0) 1)) ∧
   execution (graph_of (bench_tree 2) 0) 2 (state_of (execute (graph_of (bench_tree 2) 0) 2)) ∧
   complete (graph_of (bench_tree 2) 0) (state_of (execute (graph_of (bench_tree 2) 0) 2))) ∧
  results (state_of (execute (graph_of (bench_tree 2) 0) 1)) =
  results (state_of (execute (graph_of (bench_tree 2) 0) 2)).
Proof.
  pose proof (graph_of_built (bench_tree 2) 0 (preserves_built_bench_tree 2)) as Hb.
  pose proof (state_of_execute (graph_of (bench_tree 2) 0) 1 (built_wf _ Hb)) as [Hex1 Hc1].
  pose proof (state_of_execute (graph_of (bench_tree 2) 0) 2 (built_wf _ Hb)) as [Hex2 Hc2].
  assert (failure_free (graph_of (bench_tree 2) 0)) as Hff.
  { intros n Hn. destruct n as [|[|[|n]]]; [by eexists..|].
    exfalso. vm_compute in Hn. lia. }
  split; [done|].
  apply (execution_deterministic _ 1 2 _ _ Hb Hff Hex1 Hc1 Hex2 Hc2).
Defined.

(** ** Failure propagation *)

Lemma gather_Lit rs vs : gather rs (Lit <$> vs) = Some vs.
Proof. induction vs as [|v vs IH]; csimpl; [done|]. by rewrite IH. Qed.

Lemma value_of_is_Some g n : wf g → n < length (nodes g) → is_Some (value_of g n).
Proof.
  intros Hwf Hn. destruct (lookup_lt_is_Some_2 (nodes g) n Hn) as [nd Hnd].
  rewrite (value_of_eval g n nd Hwf Hnd). by eexists.
Qed.

(** [run] never raises on a built graph: it returns one entry per terminal,
    whatever the callables do. *)
Lemma run_total g ts limit :
  built g → Forall (valid_arg g) (Ref <$> ts) →
  ∃ m, run g ts limit = Ok m ∧ m.*1 = ts.
Proof.
  intros Hwf%built_wf Hv. rewrite (run_spec g ts limit Hwf Hv). eexists. split; [done|].
  apply Forall_fmap in Hv. induction ts as [|t ts IH]; [done|].
  apply Forall_cons in Hv as [[_ Ht] Hts].
  csimpl. destruct (value_of_is_Some g (h_node t) Hwf Ht) as [r ->]. csimpl.
  by rewrite IH.
Qed.

(** C5. In a chain [A -> B -> C] whose callable [B] fails, one [run] call
    reports [A] as successful, [B] as failed and [C] as
    [DependencyFailedError]; and [run] never raises because a node failed:
    on every built graph it returns the mapping. *)
Theorem chain_failure_propagation
    (fa fb fc : Callable) (la : list Z) (va : Z) (gid : nat) (limit : positive) :
  call fa la = Some va → call fb [va] = None →
  (∃ a b c g,
      chain fa la fb fc (new_graph gid) = Ok ((a, b, c), g) ∧
      run g [a; b; c] limit =
        Ok [(a, Success va); (b, TaskExecutionError (h_node b)); (c, DependencyFailedError)]) ∧
  (∀ g ts, built g → Forall (valid_arg g) (Ref <$> ts) →
           ∃ m, run g ts limit = Ok m ∧ m.*1 = ts).
Proof.
  intros Hfa Hfb. split; [|intros g ts; apply run_total].
  destruct (defer_total fa (Lit <$> la) (new_graph gid)) as (g1 & Hd1 & Hid1 & Hn1).
  { apply Forall_fmap, Forall_true. by intros v. }
  simpl in Hd1, Hid1, Hn1.
  destruct (defer_total fb [Ref (mkHandle gid 0)] g1) as (g2 & Hd2 & Hid2 & Hn2).
  { repeat constructor; [done|]. rewrite Hn1. simpl. lia. }
  rewrite Hid1 in Hd2, Hid2. rewrite Hn1 in Hd2, Hn2. simpl in Hd2, Hn2.
  destruct (defer_total fc [Ref (mkHandle gid 1)] g2) as (g3 & Hd3 & Hid3 & Hn3).
  { repeat constructor; [done|]. rewrite Hn2. simpl. lia. }
  rewrite Hid2 in Hd3, Hid3. rewrite Hn2 in Hd3, Hn3. simpl in Hd3, Hn3.
  assert (chain fa la fb fc (new_graph gid)
          = Ok ((mkHandle gid 0, mkHandle gid 1, mkHandle gid 2), g3)) as Hchain.
  { unfold chain. rewrite (bind_ok _ _ _ _ _ Hd1), (bind_ok _ _ _ _ _ Hd2),
      (bind_ok _ _ _ _ _ Hd3). done. }
  exists (mkHandle gid 0), (mkHandle gid 1), (mkHandle gid 2), g3. split; [done|].
  assert (built g3) as Hb.
  { eapply preserves_built_chain; [|exact Hchain]. constructor. }
  pose proof (built_wf g3 Hb) as Hwf.
  assert (value_of g3 0 = Some (Success va)) as H0.
  { rewrite (value_of_eval g3 0 (mkNode fa (Lit <$> la)) Hwf) by (by rewrite Hn3).
    unfold eval_node. simpl. by rewrite gather_Lit, Hfa. }
  assert (value_of g3 1 = Some (TaskExecutionError 1)) as H1.
  { rewrite (value_of_eval g3 1 (mkNode fb [Ref (mkHandle gid 0)]) Hwf) by (by rewrite Hn3).
    unfold eval_node. simpl. fold (value_of g3 0). by rewrite H0, Hfb. }
  assert (value_of g3 2 = Some DependencyFailedError) as H2.
  { rewrite (value_of_eval g3 2 (mkNode fc [Ref (mkHandle gid 1)]) Hwf) by (by rewrite Hn3).
    unfold eval_node. simpl. fold (value_of g3 1). by rewrite H1. }
  rewrite run_spec; [|done|].
  - csimpl. by rewrite H0, H1, H2.
  - repeat constructor; simpl; rewrite ?Hn3; simpl; done || lia.
Qed.

Lemma chain_failure_propagation_example :
  (call do_something [1%Z] = Some 10%Z ∧ call add [10%Z] = None) ∧
  ∃ a b c g,
    chain do_something [1%Z] add do_something (new_graph 0) = Ok ((a, b, c), g) ∧
    run g [a; b; c] 2 =
      Ok [(a, Success 10); (b, TaskExecutionError (h_node b)); (c, DependencyFailedError)].
Proof.
  split; [done|].
  apply (chain_failure_propagation do_something add do_something [1%Z] 10 0 2); done.
Defined.

(** ** Values of the recipes *)

Lemma foldl_add_shift (l : list Z) (a : Z) :
  foldl Z.add a l = (a + foldl Z.add 0 l)%Z.
Proof.
  revert a. induction l as [|x l IH]; intros a; simpl; [lia|].
  rewrite (IH (a + x)%Z), (IH (0 + x)%Z). lia.
Qed.

Lemma py_sum_cons x l : py_sum (x :: l) = (x + py_sum l)%Z.
Proof. unfold py_sum. simpl. apply foldl_add_shift. Qed.

Lemma py_sum_snoc l x : py_sum (l ++ [x]) = (py_sum l + x)%Z.
Proof. unfold py_sum. by rewrite foldl_app. Qed.

Lemma range_S n : range (S n) = range n ++ [Z.of_nat n].
Proof. unfold range. by rewrite seq_S, fmap_app. Qed.

Lemma range_length n : length (range n) = n.
Proof. unfold range. by rewrite length_fmap, length_seq. Qed.

Lemma py_sum_times_ten n :
  py_sum ((λ x, x * 10)%Z <$> range n) = (5 * Z.of_nat n * (Z.of_nat n - 1))%Z.
Proof.
  induction n as [|n IH]; [done|].
  rewrite range_S, fmap_app. cbn [fmap list_fmap]. rewrite py_sum_snoc, IH. lia.
Qed.

Lemma py_sum_range n :
  (2 * py_sum (range n) = Z.of_nat n * (Z.of_nat n - 1))%Z.
Proof.
  induction n as [|n IH]; [done|]. rewrite range_S, py_sum_snoc. lia.
Qed.

Lemma py_sum_range_pow e :
  1 ≤ e →
  py_sum (range (2 ^ e)) = (2 ^ (Z.of_nat e - 1) * (2 ^ Z.of_nat e - 1))%Z.
Proof.
  intros He. pose proof (py_sum_range (2 ^ e)) as H.
  rewrite Nat2Z.inj_pow in H. change (Z.of_nat 2) with 2%Z in H.
  replace (Z.of_nat e) with (Z.succ (Z.of_nat e - 1)) in H at 1 by lia.
  rewrite Z.pow_succ_r in H by lia. lia.
Qed.

Lemma gather_values g l vs :
  Forall2 (arg_value g) l vs → gather (results (sequential g)) l = Some vs.
Proof.
  induction 1 as [|a v l vs Ha _ IH]; [done|].
  destruct a as [x|h]; simpl in *.
  - rewrite IH. by subst.
  - unfold value_of in Ha. by rewrite Ha, IH.
Qed.

Lemma arg_value_extend g g' X a v :
  nodes g' = nodes g ++ X → valid_arg g a → arg_value g a v → arg_value g' a v.
Proof.
  intros HX Hv. destruct a as [x|h]; simpl in *; [done|].
  destruct Hv as [_ Hlt]. by rewrite (value_of_extend g g' X _ HX Hlt).
Qed.

Lemma gather_handles rs gid (f : nat → Z) n : ∀ base,
  (∀ i, i < n → rs !! (base + i) = Some (Success (f (base + i)))) →
  gather rs (Ref <$> (mkHandle gid <$> seq base n)) = Some (f <$> seq base n).
Proof.
  induction n as [|n IH]; intros base H; [done|]. csimpl.
  pose proof (H 0 ltac:(lia)) as H0. rewrite Nat.add_0_r in H0. rewrite H0.
  rewrite (IH (S base)); [done|]. intros i Hi.
  replace (S base + i) with (base + S i) by lia. apply H. lia.
Qed.

(** C8. For every count >= 0, running the terminal of [bench_merge count]
    gives the sum of 10 * x for x in range(count), that is
    5 * count * (count - 1); the merge node takes one handle per leaf task,
    so none for count = 0, where the result is 0. *)
Theorem bench_merge_value (gid count : nat) (limit : positive) :
  ∃ h g hs,
    bench_merge count (new_graph gid) = Ok (h, g) ∧
    nodes g !! h_node h = Some (mkNode merge (Ref <$> hs)) ∧
    length hs = count ∧
    run g [h] limit =
      Ok [(h, Success (py_sum ((λ x, x * 10)%Z <$> range count)))] ∧
    py_sum ((λ x, x * 10)%Z <$> range count)
      = (5 * Z.of_nat count * (Z.of_nat count - 1))%Z.
Proof.
  destruct (bench_merge_spec count (new_graph gid) (built_new gid))
    as (g & Hrun & Hb & Hid & Hn).
  simpl in Hrun, Hid, Hn. pose proof (built_wf g Hb) as Hwf.
  set (hs := new_handles (new_graph gid) count) in *.
  assert (length ((λ x, mkNode do_something [Lit x]) <$> range count) = count) as Hlen.
  { by rewrite length_fmap, range_length. }
  assert (nodes g !! count = Some (mkNode merge (Ref <$> hs))) as Hmerge.
  { rewrite Hn, lookup_app_r, Hlen, Nat.sub_diag by lia. done. }
  assert (∀ i, i < count → value_of g (0 + i) = Some (Success (Z.of_nat (0 + i) * 10))) as Hleaf.
  { intros i Hi. simpl.
    rewrite (value_of_eval g i (mkNode do_something [Lit (Z.of_nat i)]) Hwf); [done|].
    rewrite Hn, lookup_app_l by lia. rewrite list_lookup_fmap. unfold range.
    by rewrite list_lookup_fmap, lookup_seq_lt. }
  exists (mkHandle gid count), g, hs. split_and!.
  - done.
  - done.
  - apply new_handles_length.
  - rewrite run_spec; [|done|].
    + csimpl. rewrite (value_of_eval g count _ Hwf Hmerge). csimpl. do 4 f_equal.
      unfold eval_node. simpl. unfold hs, new_handles. simpl.
      rewrite (gather_handles _ gid (λ i, Z.of_nat i * 10)%Z count 0 Hleaf).
      simpl. do 3 f_equal. unfold range. by rewrite <- list_fmap_compose.
    + repeat constructor; simpl; [done|]. rewrite Hn, length_app, Hlen. simpl. lia.
  - apply py_sum_times_ten.
Qed.

Lemma pair_ind {A} (P : list A → Prop) :
  P [] → (∀ x, P [x]) → (∀ x y l, P l → P (x :: y :: l)) → ∀ l, P l.
Proof.
  intros Hnil Hone Hstep l.
  assert (P l ∧ ∀ x, P (x :: l)) as [? _]; [|done].
  induction l as [|y l [IH1 IH2]]; [by split|].
  split; [apply IH2|]. intros x. by apply Hstep.
Qed.

Lemma pair_sums_sum vs :
  (∃ m, length vs = 2 * m) → py_sum (pair_sums vs) = py_sum vs.
Proof.
  induction vs as [|x|x y vs IH] using pair_ind; intros [m Hm]; simpl in *.
  - done.
  - lia.
  - rewrite !py_sum_cons, IH; [lia|]. exists (m - 1). lia.
Qed.

(** The values of the nodes of one level are the sums of the values of the
    neighbours they add. *)
Lemma level_values g' gid L :
  wf g' → ∀ vs base,
  Forall2 (arg_value g') L vs →
  (∀ i nd, pair_nodes L !! i = Some nd → nodes g' !! (base + i) = Some nd) →
  Forall2 (arg_value g')
          (Ref <$> (mkHandle gid <$> seq base (length (pair_nodes L))))
          (pair_sums vs).
Proof.
  intros Hwf. induction L as [|x|x y L IH] using pair_ind; intros vs base Hvs Hnodes.
  - apply Forall2_nil_inv_l in Hvs as ->. constructor.
  - apply Forall2_cons_inv_l in Hvs as (v & vs' & _ & ->%Forall2_nil_inv_l & ->).
    constructor.
  - apply Forall2_cons_inv_l in Hvs as (vx & vs1 & Hx & Hvs & ->).
    apply Forall2_cons_inv_l in Hvs as (vy & vs2 & Hy & Hvs & ->).
    cbn [pair_nodes pair_sums length seq fmap list_fmap]. constructor.
    + simpl. pose proof (Hnodes 0 _ eq_refl) as Hnd. rewrite Nat.add_0_r in Hnd.
      rewrite (value_of_eval g' base _ Hwf Hnd). unfold eval_node. simpl args.
      by rewrite (gather_values g' [x; y] [vx; vy]) by (by repeat constructor).
    + apply IH; [done|]. intros i nd Hi.
      replace (S base + i) with (base + S i) by lia. by apply Hnodes.
Qed.

Lemma tree_value_step total k L g g' :
  built g → Forall (valid_arg g) L → length L = 2 ^ S k →
  tree_value total (S k) L g → level_step g L g' →
  tree_value total k (Ref <$> new_handles g (2 ^ k)) g'.
Proof.
  intros Hb Hv Hlen (vs & Hvs & Hsum) (Hb' & Hid & Hn).
  assert (length L = 2 * 2 ^ k) as Hlen2 by (rewrite Hlen; apply Nat.pow_succ_r').
  exists (pair_sums vs). split.
  - unfold new_handles. rewrite <- (pair_nodes_length L (2 ^ k) Hlen2).
    apply level_values; [by apply built_wf| |].
    + apply Forall2_same_length_lookup. split; [by eapply Forall2_length|].
      intros i a v Ha Hvi. eapply arg_value_extend; [exact Hn| |].
      * rewrite Forall_forall in Hv. apply Hv. by eapply list_elem_of_lookup_2.
      * by eapply Forall2_lookup_lr.
    + intros i nd Hi. rewrite Hn, lookup_app_r by lia.
      by replace (length (nodes g) + i - length (nodes g)) with i by lia.
  - rewrite pair_sums_sum; [done|]. exists (2 ^ k).
    by rewrite <- (Forall2_length _ _ _ Hvs).
Qed.

(** C10. For every exp >= 1, running the terminal handle of
    [bench_tree exp] gives sum(range(2^exp)) = 2^(exp-1) * (2^exp - 1); for
    exp = 3 this is 28. *)
Theorem bench_tree_value (gid exp : nat) (limit : positive) :
  1 ≤ exp →
  ∃ h g,
    bench_tree exp (new_graph gid) = Ok ([Ref h], g) ∧
    run g [h] limit = Ok [(h, Success (py_sum (range (2 ^ exp))))] ∧
    py_sum (range (2 ^ exp)) = (2 ^ (Z.of_nat exp - 1) * (2 ^ Z.of_nat exp - 1))%Z.
Proof.
  intros He. set (total := py_sum (range (2 ^ exp))).
  pose proof (while_loop_rule
                (λ k L g, tree_front exp 0 k L g ∧ tree_value total k L g)) as Hrule.
  destruct (Hrule) with (k := exp) (fuel := 2 ^ exp)
                        (L := Lit <$> range (2 ^ exp)) (g := new_graph gid)
    as (a & g & Hw & Hb & Hid & Hv & [_ [Ha _]] & (vs & Hvs & Hsum)).
  - intros k L g g' Hb Hv Hlen [Hf Hval] Hls. split.
    + by eapply tree_front_step.
    + by eapply tree_value_step.
  - apply Nat.pow_gt_lin_r. lia.
  - constructor.
  - apply Forall_fmap, Forall_true. by intros v.
  - by rewrite length_fmap, range_length.
  - split; [split; [simpl; lia|intros; lia]|].
    exists (range (2 ^ exp)). split; [|done].
    apply Forall2_fmap_l, Forall_Forall2_diag, Forall_true. by intros v.
  - lia.
  - change (2 ^ 0) with 1 in Ha. simpl in Ha. injection Ha as ->.
    apply Forall2_cons_inv_l in Hvs as (v & vs' & Hval & ->%Forall2_nil_inv_l & ->).
    rewrite py_sum_cons in Hsum. change (py_sum []) with 0%Z in Hsum.
    assert (v = total) as -> by lia. simpl in Hval.
    eexists _, g. split_and!.
    + unfold bench_tree. rewrite length_fmap, range_length. exact Hw.
    + rewrite run_spec; [|by apply built_wf|constructor; [exact Hv|constructor]].
      csimpl. by rewrite Hval.
    + by apply py_sum_range_pow.
Qed.

Lemma bench_tree_value_3 :
  1 ≤ 3 ∧
  ∃ h g, bench_tree 3 (new_graph 0) = Ok ([Ref h], g) ∧
         run g [h] 2 = Ok [(h, Success 28)] ∧
         py_sum (range (2 ^ 3)) = 28%Z.
Proof. split; [lia|]. apply (bench_tree_value 0 3 2). lia. Defined.

(** ** The fuel of the [while] loop is never the reason to stop *)

Lemma check_args_error g l e :
  check_args g l = Some e → e = InvalidReferenceError ∨ e = CrossGraphReferenceError.
Proof.
  induction l as [|a l IH]; simpl; [done|].
  destruct (check_arg g a) as [e'|] eqn:E; [|done]. intros [= <-].
  destruct a as [v|h]; simpl in E; [done|].
  repeat case_bool_decide; simplify_eq; auto.
Qed.

Lemma for_loop_result idx L : ∀ acc g,
  match for_loop idx L acc g with
  | Ok (L', _) => length L' = length acc + length idx
  | Err e => e ≠ FuelExhausted
  end.
Proof.
  induction idx as [|i idx IH]; intros acc g; simpl.
  - unfold ret. lia.
  - destruct (L !! i) as [x|]; [|done]. destruct (L !! (i + 1)) as [y|]; [|done].
    unfold bind, defer. destruct (check_args g [x; y]) as [e|] eqn:E.
    + by destruct (check_args_error _ _ _ E) as [-> | ->].
    + match goal with
      | |- context [for_loop idx L ?acc' ?g'] => specialize (IH acc' g')
      end.
      destruct (for_loop idx L _ _) as [[L' g']|e]; [|done].
      rewrite IH, length_app. simpl. lia.
Qed.

Lemma while_loop_fuel fuel : ∀ L g,
  length L ≤ fuel → while_loop fuel L g ≠ Err FuelExhausted.
Proof.
  induction fuel as [|fuel IH]; intros L g Hlen; simpl.
  - rewrite bool_decide_false by lia. done.
  - case_bool_decide as Hgt; [|done]. unfold bind.
    pose proof (for_loop_result (range_even (length L)) L [] g) as Hfor.
    destruct (for_loop (range_even (length L)) L [] g) as [[L' g']|e]; [|congruence].
    apply IH. rewrite Hfor. unfold range_even. rewrite length_fmap, length_seq.
    cbn [length]. assert ((length L + 1) / 2 < length L); [|lia].
    apply Nat.Div0.div_lt_upper_bound; lia.
Qed.

Lemma bench_tree_fuel exp g : bench_tree exp g ≠ Err FuelExhausted.
Proof. unfold bench_tree. by apply while_loop_fuel. Qed.

(** ** Instances *)

Lemma edge_count_handle_args_merge :
  built (graph_of (bench_merge 2) 0) ∧
  edgeCount (graph_of (bench_merge 2) 0)
    = sum_list_with handle_args (nodes (graph_of (bench_merge 2) 0)).
Proof.
  pose proof (graph_of_built (bench_merge 2) 0 (preserves_built_bench_merge 2)) as Hb.
  split; [done|]. apply (edge_count_handle_args _ Hb).
Defined.

Lemma critical_path_zero_iff_no_edges_tree :
  built (graph_of (bench_tree 2) 0) ∧
  (0 ≤ criticalPathLength (graph_of (bench_tree 2) 0) ∧
   (criticalPathLength (graph_of (bench_tree 2) 0) = 0
      ↔ edgeCount (graph_of (bench_tree 2) 0) = 0) ∧
   (criticalPathLength (graph_of (bench_tree 2) 0) = 0
      ↔ isolated (graph_of (bench_tree 2) 0))).
Proof.
  pose proof (graph_of_built (bench_tree 2) 0 (preserves_built_bench_tree 2)) as Hb.
  split; [done|]. apply (critical_path_zero_iff_no_edges _ Hb).
Defined.

(** * Further properties of the recipes *)

(** ** The callables *)

Lemma py_sum_Permutation l l' : l ≡ₚ l' → py_sum l = py_sum l'.
Proof.
  induction 1 as [|x l l' _ IH|x y l|l1 l2 l3 _ IH1 _ IH2].
  - done.
  - by rewrite !py_sum_cons, IH.
  - rewrite !py_sum_cons. lia.
  - congruence.
Qed.

Lemma py_sum_app l1 l2 : py_sum (l1 ++ l2) = (py_sum l1 + py_sum l2)%Z.
Proof.
  induction l1 as [|x l1 IH]; simpl; [done|]. rewrite !py_sum_cons, IH. lia.
Qed.

(** X1. [merge] does not depend on the order in which its arguments are
    passed, and merging two groups of arguments gives the sum of the two
    merges. *)
Theorem merge_order_insensitive (l l' : list Z) :
  l ≡ₚ l' →
  call merge l = call merge l' ∧
  ∀ k v w, call merge l = Some v → call merge k = Some w →
           call merge (l' ++ k) = Some (v + w)%Z.
Proof.
  intros Hp. simpl. split; [by rewrite (py_sum_Permutation l l')|].
  intros k v w [= <-] [= <-]. by rewrite py_sum_app, (py_sum_Permutation l l').
Qed.

Lemma merge_order_insensitive_example :
  [1; 2; 3]%Z ≡ₚ [3; 1; 2]%Z ∧ call merge [1; 2; 3]%Z = call merge [3; 1; 2]%Z.
Proof.
  assert ([1; 2; 3]%Z ≡ₚ [3; 1; 2]%Z) as Hp.
  { apply (bool_decide_unpack ([1; 2; 3]%Z ≡ₚ [3; 1; 2]%Z)). vm_compute. exact I. }
  split; [done|]. apply (merge_order_insensitive _ _ Hp).
Defined.

(** ** Graphs whose callables cannot fail *)

Lemma gather_length rs l vs : gather rs l = Some vs → length vs = length l.
Proof.
  revert vs. induction l as [|[v|h] l IH]; intros vs; simpl.
  - by intros [= <-].
  - destruct (gather rs l) as [ws|]; [|done]. intros [= <-]. simpl. by rewrite (IH ws).
  - destruct (rs !! h_node h) as [[w| |]|]; try done.
    destruct (gather rs l) as [ws|]; [|done]. intros [= <-]. simpl. by rewrite (IH ws).
Qed.

Lemma failure_free_total g :
  wf g → Forall total_on (nodes g) → failure_free g.
Proof.
  intros Hwf Htot n. induction n as [n IH] using lt_wf_ind. intros Hn.
  destruct (lookup_lt_is_Some_2 (nodes g) n Hn) as [nd Hnd].
  rewrite (value_of_eval g n nd Hwf Hnd). unfold eval_node.
  assert (is_Some (gather (results (sequential g)) (args nd))) as [vs Hvs].
  { apply gather_is_Some. intros p Hp.
    assert (p < n) as Hpn.
    { apply (arg_refs_lt (graph_id g) n (args nd)); [|done]. by apply (wf_args g Hwf). }
    apply (IH p Hpn). lia. }
  rewrite Hvs. rewrite Forall_lookup in Htot.
  destruct (Htot n nd Hnd vs) as [v ->]; [by eapply gather_length|]. by eexists.
Qed.

(** In a failure-free graph a complete pass logs every node once. *)
Lemma trace_failure_free g limit st :
  wf g → failure_free g → execution g limit st → complete g st →
  trace st ≡ₚ seq 0 (length (nodes g)).
Proof.
  intros Hwf Hff Hex Hc.
  pose proof (exec_inv_execution g limit st Hwf Hex) as Hinv.
  pose proof (complete_results g st Hinv Hc) as Hres.
  apply NoDup_Permutation; [apply (inv_nodup g st Hinv)|apply NoDup_seq|].
  intros n. rewrite (inv_trace g st Hinv), elem_of_seq, Hres. split.
  - intros (r & Hr & _). destruct (decide (n < length (nodes g))); [lia|].
    rewrite value_of_None in Hr by lia. done.
  - intros [_ Hn]. destruct (Hff n Hn) as [v Hv]. by exists (Success v).
Qed.

Lemma invocations_failure_free g limit st :
  wf g → failure_free g → execution g limit st → complete g st →
  length (trace st) = length (nodes g) ∧
  ∀ n, n < length (nodes g) → invocations st n = 1.
Proof.
  intros Hwf Hff Hex Hc.
  pose proof (trace_failure_free g limit st Hwf Hff Hex Hc) as Hp.
  split; [by rewrite Hp, length_seq|]. intros n Hn. unfold invocations.
  rewrite (filter_eq_NoDup _ _ (inv_nodup g st (exec_inv_execution g limit st Hwf Hex))).
  rewrite decide_True; [done|]. rewrite Hp. apply elem_of_seq. lia.
Qed.

(** ** Fan-in recipes: leaf tasks on literals, merged by one node *)

Lemma list_comp_defer_lit {A} f (h : A → Z) (xs : list A) : ∀ g,
  built g →
  ∃ g', list_comp (λ x, defer f [Lit (h x)]) xs g = Ok (new_handles g (length xs), g') ∧
        built g' ∧ graph_id g' = graph_id g ∧
        nodes g' = nodes g ++ ((λ x, mkNode f [Lit (h x)]) <$> xs).
Proof.
  induction xs as [|x xs IH]; intros g Hb.
  - exists g. simpl. by rewrite app_nil_r.
  - destruct (defer_total f [Lit (h x)] g) as (g1 & Hd & Hid1 & Hn1);
      [by repeat constructor|].
    pose proof (built_defer _ _ _ _ _ Hb Hd) as Hb1.
    destruct (IH _ Hb1) as (g' & Hc & Hb' & Hid' & Hn').
    exists g'. split_and!; [|done|congruence|].
    + cbn [list_comp]. rewrite (bind_ok _ _ _ _ _ Hd), (bind_ok _ _ _ _ _ Hc).
      unfold ret. cbn [length]. by rewrite (new_handles_S _ _ _ _ _ _ Hd).
    + rewrite Hn', Hn1, <- app_assoc. done.
Qed.

Lemma fan_in_spec {A} f (h : A → Z) (xs : list A) g :
  built g →
  ∃ g', (ys <- list_comp (λ x, defer f [Lit (h x)]) xs ;;
         result <- defer merge (Ref <$> ys) ;; ret result) g
          = Ok (mkHandle (graph_id g) (length (nodes g) + length xs), g') ∧
        built g' ∧ graph_id g' = graph_id g ∧
        nodes g' = nodes g ++ ((λ x, mkNode f [Lit (h x)]) <$> xs)
                           ++ [mkNode merge (Ref <$> new_handles g (length xs))].
Proof.
  intros Hb. destruct (list_comp_defer_lit f h xs g Hb) as (g1 & Hc & Hb1 & Hid1 & Hn1).
  assert (length (nodes g1) = length (nodes g) + length xs) as Hl1.
  { by rewrite Hn1, length_app, length_fmap. }
  destruct (defer_total merge (Ref <$> new_handles g (length xs)) g1
              (new_handles_valid g g1 _ Hid1 Hl1)) as (g2 & Hd & Hid2 & Hn2).
  exists g2. split_and!.
  - rewrite (bind_ok _ _ _ _ _ Hc), (bind_ok _ _ _ _ _ Hd).
    unfold ret. by rewrite Hid1, Hl1.
  - by eapply built_defer.
  - congruence.
  - rewrite Hn2, Hn1, <- app_assoc. done.
Qed.

Lemma fan_in_preds {A} f (h : A → Z) (xs : list A) g :
  (λ nd, arg_refs (args nd)) <$>
    (((λ x, mkNode f [Lit (h x)]) <$> xs)
       ++ [mkNode merge (Ref <$> new_handles g (length xs))]) =
  replicate (length xs) [] ++ [seq (length (nodes g)) (length xs)].
Proof.
  rewrite fmap_app. f_equal.
  - rewrite <- list_fmap_compose. induction xs as [|x xs IH]; simpl; [done|by f_equal].
  - simpl. by rewrite arg_refs_Ref, new_handles_nodes.
Qed.

(** The metrics of a graph after a fan-in recipe was built on it. *)
Lemma fan_in_metrics {A} f (h : A → Z) (xs : list A) g g' :
  wf g → wf g' →
  nodes g' = nodes g ++ ((λ x, mkNode f [Lit (h x)]) <$> xs)
                     ++ [mkNode merge (Ref <$> new_handles g (length xs))] →
  vertexCount g' = vertexCount g + length xs + 1 ∧
  edgeCount g' = edgeCount g + length xs ∧
  criticalPathLength g' = criticalPathLength g `max` (1 `min` length xs).
Proof.
  intros Hwf Hwf' Hn.
  assert (preds g' = preds g ++ replicate (length xs) [] ++ [seq (length (nodes g)) (length xs)])
    as Hp.
  { rewrite (wf_preds g' Hwf'), Hn, fmap_app, <- (wf_preds g Hwf). f_equal.
    apply fan_in_preds. }
  split_and!.
  - unfold vertexCount. rewrite Hn, !length_app, length_fmap. simpl. lia.
  - rewrite !edgeCount_in_degree, Hp, !sum_list_with_app by done. simpl.
    rewrite length_seq. replace (sum_list_with length (replicate (length xs) [])) with 0; [lia|].
    symmetry. apply sum_lengths_0, Forall_replicate. done.
  - rewrite !criticalPathLength_max by done. unfold longest_from_root. rewrite Hp.
    assert (longest_paths (preds g ++ replicate (length xs) [])
            = longest_paths (preds g) ++ replicate (length xs) 0) as Hroots.
    { rewrite (longest_paths_level _ _ 0); [by rewrite length_replicate|].
      apply Forall_replicate. by split. }
    rewrite app_assoc, longest_paths_snoc, Hroots, !max_list_app.
    destruct (length xs) as [|n]; [simpl; lia|].
    rewrite (node_depth_uniform _ _ 0); [|done|].
    + rewrite max_list_replicate by done. simpl. lia.
    + intros p [Hp1 Hp2]%elem_of_seq.
      rewrite lookup_app_r; rewrite longest_paths_length, (wf_preds_length g Hwf); [|lia].
      destruct (_ !! _) as [d|] eqn:E; [|done].
      by apply lookup_replicate in E as [-> _].
Qed.

(** The values of a fan-in recipe whose leaf calls all return. *)
Lemma fan_in_value {A} f (h : A → Z) (w : A → Z) (xs : list A) g g' :
  wf g' →
  nodes g' = nodes g ++ ((λ x, mkNode f [Lit (h x)]) <$> xs)
                     ++ [mkNode merge (Ref <$> new_handles g (length xs))] →
  (∀ x, x ∈ xs → call f [h x] = Some (w x)) →
  (∀ i x, xs !! i = Some x →
          value_of g' (length (nodes g) + i) = Some (Success (w x))) ∧
  value_of g' (length (nodes g) + length xs) = Some (Success (py_sum (w <$> xs))).
Proof.
  intros Hwf Hn Hcall.
  assert (Hleaf : ∀ i x, xs !! i = Some x →
            value_of g' (length (nodes g) + i) = Some (Success (w x))).
  { intros i x Hi. pose proof (lookup_lt_Some _ _ _ Hi) as Hlt.
    rewrite (value_of_eval g' _ (mkNode f [Lit (h x)]) Hwf).
    - unfold eval_node. simpl. rewrite Hcall; [done|]. by eapply list_elem_of_lookup_2.
    - rewrite Hn, lookup_app_r by lia.
      replace (length (nodes g) + i - length (nodes g)) with i by lia.
      rewrite lookup_app_l by (by rewrite length_fmap).
      by rewrite list_lookup_fmap, Hi. }
  split; [done|].
  rewrite (value_of_eval g' _ (mkNode merge (Ref <$> new_handles g (length xs))) Hwf).
  - unfold eval_node. simpl args.
    rewrite (gather_values g' _ (w <$> xs)); [done|].
    apply Forall2_fmap_l, Forall2_fmap_r, Forall2_same_length_lookup.
    split; [by rewrite new_handles_length|].
    intros i hd x Hhd Hx. unfold new_handles in Hhd.
    rewrite list_lookup_fmap in Hhd.
    destruct (seq (length (nodes g)) (length xs) !! i) as [j|] eqn:Ej; [|done].
    apply lookup_seq in Ej as [-> _]. injection Hhd as <-. simpl. by apply Hleaf.
  - rewrite Hn, lookup_app_r by lia. rewrite lookup_app_r; rewrite length_fmap; [|lia].
    by replace (length (nodes g) + length xs - length (nodes g) - length xs) with 0 by lia.
Qed.

(** The values of a fan-in recipe whose leaf calls all raise. *)
Lemma fan_in_failure {A} f (h : A → Z) (xs : list A) g g' :
  wf g' →
  nodes g' = nodes g ++ ((λ x, mkNode f [Lit (h x)]) <$> xs)
                     ++ [mkNode merge (Ref <$> new_handles g (length xs))] →
  (∀ x, x ∈ xs → call f [h x] = None) →
  xs ≠ [] →
  (∀ i, i < length xs →
        value_of g' (length (nodes g) + i)
          = Some (TaskExecutionError (length (nodes g) + i))) ∧
  value_of g' (length (nodes g) + length xs) = Some DependencyFailedError.
Proof.
  intros Hwf Hn Hcall Hne.
  assert (Hleaf : ∀ i, i < length xs →
            value_of g' (length (nodes g) + i)
              = Some (TaskExecutionError (length (nodes g) + i))).
  { intros i Hlt. destruct (lookup_lt_is_Some_2 xs i Hlt) as [x Hi].
    rewrite (value_of_eval g' _ (mkNode f [Lit (h x)]) Hwf).
    - unfold eval_node. simpl. rewrite Hcall; [done|]. by eapply list_elem_of_lookup_2.
    - rewrite Hn, lookup_app_r by lia.
      replace (length (nodes g) + i - length (nodes g)) with i by lia.
      rewrite lookup_app_l by (by rewrite length_fmap).
      by rewrite list_lookup_fmap, Hi. }
  split; [done|].
  rewrite (value_of_eval g' _ (mkNode merge (Ref <$> new_handles g (length xs))) Hwf).
  - unfold eval_node. simpl args. destruct xs as [|x xs]; [done|].
    unfold new_handles. cbn [length seq fmap list_fmap gather h_node].
    fold (value_of g' (length (nodes g))).
    pose proof (Hleaf 0 ltac:(simpl; lia)) as H0. rewrite Nat.add_0_r in H0.
    by rewrite H0.
  - rewrite Hn, lookup_app_r by lia. rewrite lookup_app_r; rewrite length_fmap; [|lia].
    by replace (length (nodes g) + length xs - length (nodes g) - length xs) with 0 by lia.
Qed.

(** ** The tree recipe on any graph: the nodes it creates *)

Lemma pair_nodes_app A B m :
  length A = 2 * m → pair_nodes (A ++ B) = pair_nodes A ++ pair_nodes B.
Proof.
  revert A. induction m as [|m IH]; intros A Hlen.
  - by destruct A.
  - destruct A as [|x [|y A]]; simpl in Hlen; try lia.
    cbn [app pair_nodes]. rewrite IH by lia. done.
Qed.

Lemma pair_nodes_lookup L : ∀ i x y,
  L !! (2 * i) = Some x → L !! (2 * i + 1) = Some y →
  pair_nodes L !! i = Some (mkNode add [x; y]).
Proof.
  induction L as [|a|a b L IH] using pair_ind; intros i x y Hx Hy.
  - done.
  - destruct i; [done|]. replace (2 * S i) with (S (S (2 * i))) in Hx by lia. done.
  - destruct i as [|i].
    + simpl in Hx, Hy. by simplify_eq.
    + replace (2 * S i) with (S (S (2 * i))) in Hx by lia.
      replace (2 * S i + 1) with (S (S (2 * i + 1))) in Hy by lia.
      simpl in Hx, Hy. cbn [pair_nodes lookup list_lookup]. by apply IH.
Qed.

Lemma pair_nodes_args L nd a :
  nd ∈ pair_nodes L → a ∈ args nd → a ∈ L.
Proof.
  induction L as [|x|x y L IH] using pair_ind; simpl.
  - by intros ?%elem_of_nil.
  - by intros ?%elem_of_nil.
  - intros [->|Hnd]%elem_of_cons Ha.
    + simpl in Ha. apply elem_of_cons in Ha as [->|Ha]; [by left|].
      apply list_elem_of_singleton in Ha as ->. right. by left.
    + do 2 right. by apply IH.
Qed.

Lemma pair_nodes_handle_args L m :
  length L = 2 * m →
  sum_list_with handle_args (pair_nodes L) = length (filter is_handle L).
Proof.
  revert L. induction m as [|m IH]; intros L Hlen.
  - by destruct L.
  - destruct L as [|x [|y L]]; simpl in Hlen; try lia.
    cbn [pair_nodes sum_list_with]. rewrite IH by lia.
    unfold handle_args. simpl args. rewrite !filter_cons.
    destruct x, y; simpl; lia.
Qed.

Lemma pair_nodes_total L : Forall total_on (pair_nodes L).
Proof.
  induction L as [|x|x y L IH] using pair_ind; simpl; [constructor..|].
  constructor; [|done]. intros vs Hvs. simpl in *.
  destruct vs as [|v [|w [|? ?]]]; simpl in Hvs; try lia. by eexists.
Qed.

Lemma tree_stream_length gid n0 e :
  length (tree_stream gid n0 e) = 2 ^ e + (2 ^ e - 1).
Proof.
  unfold tree_stream. by rewrite length_app, !length_fmap, range_length, length_seq.
Qed.

Lemma pow2_pos k : 1 ≤ 2 ^ k.
Proof. apply Nat.neq_0_lt_0, Nat.pow_nonzero. lia. Qed.

Lemma tree_exact_init gid e N0 g0 :
  graph_id g0 = gid → nodes g0 = N0 →
  tree_exact gid (length N0) e N0 e (Lit <$> range (2 ^ e)) g0.
Proof.
  intros Hid Hn. unfold tree_exact. rewrite Nat.sub_diag. simpl.
  split_and!; [done|done|by rewrite app_nil_r|].
  rewrite drop_0. unfold tree_stream. rewrite take_app_length'; [done|].
  by rewrite length_fmap, range_length.
Qed.

Lemma tree_exact_step gid e N0 k L g g' :
  built g → Forall (valid_arg g) L → length L = 2 ^ S k →
  tree_exact gid (length N0) e N0 (S k) L g → level_step g L g' →
  tree_exact gid (length N0) e N0 k (Ref <$> new_handles g (2 ^ k)) g'.
Proof.
  intros Hb Hv Hlen (Hk & Hid & Hn & HL) (Hb' & Hid' & Hn').
  pose proof (pow2_pos k) as Hpos.
  pose proof (Nat.pow_succ_r' 2 k) as Hpk.
  pose proof (Nat.pow_le_mono_r 2 (S k) e ltac:(lia) Hk) as Hke.
  pose proof (tree_stream_length gid (length N0) e) as HT.
  set (T := tree_stream gid (length N0) e) in *.
  set (r := 2 ^ e - 2 ^ S k) in *.
  assert (2 ^ e - 2 ^ k = r + 2 ^ k) as Hr by (unfold r; lia).
  assert (length (take (2 * r) T) = 2 * r) as Hlt.
  { rewrite length_take. unfold r. lia. }
  assert (length (nodes g) = length N0 + r) as Hlg.
  { by rewrite Hn, length_app, (pair_nodes_length _ r Hlt). }
  unfold tree_exact. rewrite Hr. split_and!; [lia|congruence| |].
  - rewrite Hn', Hn, HL, <- app_assoc. f_equal.
    rewrite <- (pair_nodes_app _ _ r Hlt). f_equal.
    rewrite take_take_drop. f_equal. lia.
  - unfold new_handles. rewrite Hid, Hlg.
    replace (2 * (r + 2 ^ k)) with (2 ^ e + r) by (unfold r; lia).
    unfold T, tree_stream.
    rewrite drop_app_add' by (by rewrite length_fmap, range_length).
    rewrite <- !fmap_drop, <- !fmap_take, drop_seq, take_seq.
    do 3 f_equal. unfold r. lia.
Qed.

(** The depths of the nodes of one level. *)
Lemma level_depths g L g' lv m :
  built g → Forall (valid_arg g) L → length L = 2 * m →
  Forall (λ a, arg_level g a = lv) L → level_step g L g' →
  longest_from_root g' = longest_from_root g ++ replicate m lv.
Proof.
  intros Hb Hv Hlen Hlv Hls. pose proof (built_wf g Hb) as Hwf.
  pose proof (pair_preds_uniform g lv m L Hwf Hv Hlen Hlv) as HQ.
  unfold longest_from_root. rewrite (level_preds g L g' Hls Hwf).
  rewrite (longest_paths_level _ _ lv).
  - by rewrite length_fmap, (pair_nodes_length L m).
  - eapply Forall_impl; [exact HQ|]. by intros q [? _].
Qed.

Lemma tree_depths_init e g0 :
  tree_depths e (longest_from_root g0) e (Lit <$> range (2 ^ e)) g0.
Proof.
  unfold tree_depths. rewrite take_ge, drop_ge by done.
  split_and!; [done..|constructor|].
  apply Forall_fmap, Forall_true. intros v. simpl. lia.
Qed.

Lemma tree_depths_step e D0 k L g g' :
  built g → Forall (valid_arg g) L → length L = 2 ^ S k →
  tree_depths e D0 (S k) L g → level_step g L g' →
  tree_depths e D0 k (Ref <$> new_handles g (2 ^ k)) g'.
Proof.
  intros Hb Hv Hlen (Hk & Htake & Hlen0 & Hnew & Hlv) Hls.
  pose proof (built_wf g Hb) as Hwf.
  assert (length L = 2 * 2 ^ k) as Hlen2 by (rewrite Hlen; apply Nat.pow_succ_r').
  pose proof (level_depths g L g' (e - S k) (2 ^ k) Hb Hv Hlen2 Hlv Hls) as HD.
  unfold tree_depths. rewrite HD. split_and!.
  - lia.
  - by rewrite take_app_le.
  - rewrite length_app. lia.
  - rewrite drop_app_le by done. apply Forall_app. split.
    + eapply Forall_impl; [exact Hnew|]. simpl. lia.
    + apply Forall_replicate. lia.
  - apply Forall_fmap, Forall_fmap, Forall_forall. intros i [Hi1 Hi2]%elem_of_seq.
    simpl. unfold depth. rewrite HD, lookup_app_r;
      rewrite (longest_from_root_length g Hwf); [|lia].
    rewrite lookup_replicate_2 by lia. simpl. lia.
Qed.

(** Everything the loop rule gives for [bench_tree] started on a built
    graph. *)
Lemma bench_tree_from e g0 :
  built g0 →
  ∃ a g, bench_tree e g0 = Ok ([a], g) ∧ built g ∧ graph_id g = graph_id g0 ∧
         valid_arg g a ∧
         tree_exact (graph_id g0) (length (nodes g0)) e (nodes g0) 0 [a] g ∧
         tree_depths e (longest_from_root g0) 0 [a] g ∧
         tree_value (py_sum (range (2 ^ e))) 0 [a] g.
Proof.
  intros Hb0.
  pose proof (while_loop_rule
    (λ k L g, tree_exact (graph_id g0) (length (nodes g0)) e (nodes g0) k L g ∧
              tree_depths e (longest_from_root g0) k L g ∧
              tree_value (py_sum (range (2 ^ e))) k L g)) as Hrule.
  destruct Hrule with (k := e) (fuel := 2 ^ e)
                      (L := Lit <$> range (2 ^ e)) (g := g0)
    as (a & g & Hw & Hb & Hid & Hv & He & Hd & Hval).
  - intros k L g g' Hb Hv Hlen (He & Hd & Hval) Hls. split_and!.
    + by eapply tree_exact_step.
    + by eapply tree_depths_step.
    + by eapply tree_value_step.
  - apply Nat.pow_gt_lin_r. lia.
  - done.
  - apply Forall_fmap, Forall_true. by intros v.
  - by rewrite length_fmap, range_length.
  - split_and!.
    + by apply tree_exact_init.
    + apply tree_depths_init.
    + exists (range (2 ^ e)). split; [|done].
      apply Forall2_fmap_l, Forall_Forall2_diag, Forall_true. by intros v.
  - exists a, g. split_and!; try done.
    unfold bench_tree. by rewrite length_fmap, range_length.
Qed.

Lemma tree_exact_final gid e N0 a g :
  tree_exact gid (length N0) e N0 0 [a] g →
  nodes g = N0 ++ pair_nodes (tree_stream gid (length N0) e) ∧
  last (tree_stream gid (length N0) e) = Some a ∧
  length (pair_nodes (tree_stream gid (length N0) e)) = 2 ^ e - 1 ∧
  sum_list_with handle_args (pair_nodes (tree_stream gid (length N0) e))
    = length (filter is_handle (take (2 * (2 ^ e - 1)) (tree_stream gid (length N0) e))).
Proof.
  intros (_ & _ & Hn & HL). change (2 ^ 0) with 1 in *.
  pose proof (tree_stream_length gid (length N0) e) as HT.
  pose proof (pow2_pos e) as Hpos.
  set (T := tree_stream gid (length N0) e) in *.
  assert (length (take (2 * (2 ^ e - 1)) T) = 2 * (2 ^ e - 1)) as Hlt.
  { rewrite length_take. lia. }
  assert (drop (2 * (2 ^ e - 1)) T = [a]) as Hdrop.
  { rewrite HL. symmetry. apply take_ge. rewrite length_drop. lia. }
  assert (T = take (2 * (2 ^ e - 1)) T ++ [a]) as HTa.
  { rewrite <- Hdrop. by rewrite take_drop. }
  assert (pair_nodes T = pair_nodes (take (2 * (2 ^ e - 1)) T)) as Hpn.
  { rewrite HTa at 1. rewrite (pair_nodes_app _ _ _ Hlt). simpl. by rewrite app_nil_r. }
  split_and!.
  - by rewrite Hpn.
  - rewrite HTa. apply last_snoc.
  - rewrite Hpn. by apply pair_nodes_length.
  - rewrite Hpn. by apply (pair_nodes_handle_args _ (2 ^ e - 1)).
Qed.

Lemma filter_is_handle_Lit (vs : list Z) : filter is_handle (Lit <$> vs) = [].
Proof. induction vs as [|v vs IH]; [done|]. csimpl. by rewrite filter_cons_False by (cbn; tauto). Qed.

Lemma filter_is_handle_Ref (hs : list Handle) :
  filter is_handle (Ref <$> hs) = Ref <$> hs.
Proof.
  induction hs as [|h hs IH]; [done|]. csimpl.
  rewrite filter_cons_True by (cbn; tauto). by rewrite IH.
Qed.

Lemma tree_stream_handles gid n0 e :
  length (filter is_handle (take (2 * (2 ^ e - 1)) (tree_stream gid n0 e))) = 2 ^ e - 2.
Proof.
  pose proof (pow2_pos e) as Hpos. unfold tree_stream.
  destruct (decide (2 ^ e = 1)) as [H1|Hne].
  - rewrite H1. done.
  - rewrite take_app_ge; rewrite length_fmap, range_length; [|lia].
    rewrite filter_app, filter_is_handle_Lit. simpl.
    rewrite <- fmap_take, filter_is_handle_Ref, <- fmap_take, take_seq.
    rewrite !length_fmap, length_seq. lia.
Qed.

Lemma tree_stream_refs gid n0 e a :
  a ∈ tree_stream gid n0 e →
  match a with Lit _ => True | Ref h => n0 ≤ h_node h end.
Proof.
  unfold tree_stream. intros [Ha|Ha]%elem_of_app.
  - by apply list_elem_of_fmap in Ha as (v & -> & _).
  - apply list_elem_of_fmap in Ha as (h & -> & Hh).
    apply list_elem_of_fmap in Hh as (i & -> & [Hi _]%elem_of_seq). done.
Qed.

Lemma elem_of_arg_refs l p : p ∈ arg_refs l → ∃ h, Ref h ∈ l ∧ h_node h = p.
Proof.
  induction l as [|[v|h] l IH]; simpl.
  - by intros ?%elem_of_nil.
  - intros (h & Hh & Hp)%IH. exists h. split; [by right|done].
  - intros [->|Hp]%elem_of_cons.
    + exists h. split; [by left|done].
    + destruct (IH Hp) as (h' & Hh & Hp'). exists h'. split; [by right|done].
Qed.

Lemma edgeCount_nodes g : wf g → edgeCount g = sum_list_with handle_args (nodes g).
Proof.
  intros Hwf. rewrite edgeCount_in_degree by done.
  rewrite (wf_preds g Hwf). apply in_degree_handle_args.
Qed.

(** X3. Started on any built graph, [bench_tree exp] creates its nodes after
    the ones that were there, in this order: the j-th new node adds the
    entries 2j and 2j+1 of the stream made of the literals of
    range(2 ** exp) followed by the handles of the new nodes themselves;
    what it returns is the last entry of that stream. *)
Theorem bench_tree_nodes (exp : nat) (g0 : TaskGraph) :
  built g0 →
  ∃ a g,
    bench_tree exp g0 = Ok ([a], g) ∧
    last (tree_stream (graph_id g0) (length (nodes g0)) exp) = Some a ∧
    nodes g = nodes g0 ++ pair_nodes (tree_stream (graph_id g0) (length (nodes g0)) exp) ∧
    length (nodes g) = length (nodes g0) + (2 ^ exp - 1) ∧
    ∀ j x y,
      tree_stream (graph_id g0) (length (nodes g0)) exp !! (2 * j) = Some x →
      tree_stream (graph_id g0) (length (nodes g0)) exp !! (2 * j + 1) = Some y →
      nodes g !! (length (nodes g0) + j) = Some (mkNode add [x; y]).
Proof.
  intros Hb0. destruct (bench_tree_from exp g0 Hb0)
    as (a & g & Hrun & Hb & Hid & Hv & He & _ & _).
  destruct (tree_exact_final _ _ _ _ _ He) as (Hn & Hlast & Hlen & _).
  exists a, g. split_and!; [done|done|done| |].
  - by rewrite Hn, length_app, Hlen.
  - intros j x y Hx Hy. rewrite Hn, lookup_app_r by lia.
    replace (length (nodes g0) + j - length (nodes g0)) with j by lia.
    by apply pair_nodes_lookup.
Qed.

Lemma bench_tree_nodes_2 :
  built (new_graph 0) ∧
  ∃ a g,
    bench_tree 2 (new_graph 0) = Ok ([a], g) ∧
    a = Ref (mkHandle 0 2) ∧
    nodes g = [mkNode add [Lit 0; Lit 1]; mkNode add [Lit 2; Lit 3];
               mkNode add [Ref (mkHandle 0 0); Ref (mkHandle 0 1)]].
Proof.
  split; [constructor|].
  destruct (bench_tree_nodes 2 (new_graph 0) (built_new 0)) as (a & g & Hrun & Hlast & Hn & _).
  exists a, g. split; [done|]. split; [by injection Hlast|exact Hn].
Defined.

(** X4. Started on any built graph, [bench_tree exp] adds 2^exp - 1 vertices
    and 2^exp - 2 edges (none for exp = 0) to the counts of the graph, and the
    critical path becomes the longer of the one that was there and
    exp - 1. *)
Theorem bench_tree_appends (exp : nat) (g0 : TaskGraph) :
  built g0 →
  ∃ a g,
    bench_tree exp g0 = Ok ([a], g) ∧
    vertexCount g = vertexCount g0 + (2 ^ exp - 1) ∧
    edgeCount g = edgeCount g0 + (2 ^ exp - 2) ∧
    criticalPathLength g = criticalPathLength g0 `max` (exp - 1).
Proof.
  intros Hb0. destruct (bench_tree_from exp g0 Hb0)
    as (a & g & Hrun & Hb & Hid & Hv & He & Hd & _).
  destruct (tree_exact_final _ _ _ _ _ He) as (Hn & _ & Hlen & Hsum).
  pose proof (built_wf g0 Hb0) as Hwf0. pose proof (built_wf g Hb) as Hwf.
  exists a, g. split_and!; [done| | |].
  - unfold vertexCount. by rewrite Hn, length_app, Hlen.
  - rewrite !edgeCount_nodes, Hn, sum_list_with_app, Hsum by done.
    by rewrite tree_stream_handles.
  - destruct Hd as (_ & Htake & Hlen0 & Hnew & Hlv).
    rewrite Nat.sub_0_r in Hnew, Hlv. apply Forall_cons in Hlv as [Ha _].
    rewrite !criticalPathLength_max by done.
    rewrite <- (take_drop (length (longest_from_root g0)) (longest_from_root g)) at 1.
    rewrite max_list_app, Htake.
    assert (max_list (drop (length (longest_from_root g0)) (longest_from_root g)) ≤ exp - 1)
      as Hle.
    { apply max_list_le. intros d Hin. rewrite Forall_forall in Hnew.
      specialize (Hnew d Hin). lia. }
    assert (exp - 1 ≤ max_list (longest_from_root g)) as Hge.
    { destruct a as [v|h]; simpl in Ha; [lia|].
      pose proof (depth_le_max g (h_node h)). lia. }
    rewrite <- (take_drop (length (longest_from_root g0)) (longest_from_root g)) in Hge.
    rewrite max_list_app, Htake in Hge. lia.
Qed.

Lemma bench_tree_appends_after_merge :
  built (graph_of (bench_merge 3) 0) ∧
  ∃ a g,
    bench_tree 2 (graph_of (bench_merge 3) 0) = Ok ([a], g) ∧
    vertexCount g = 4 + 3 ∧ edgeCount g = 3 + 2 ∧ criticalPathLength g = 1.
Proof.
  pose proof (graph_of_built (bench_merge 3) 0 (preserves_built_bench_merge 3)) as Hb.
  split; [done|]. apply (bench_tree_appends 2 _ Hb).
Defined.

(** ** The merge recipe on any graph *)

(** X2. Started on any built graph, [bench_merge count] creates count leaf
    nodes [do_something(x)], x in range(count), then the merge node over
    their handles, after the nodes that were there; it returns the handle of
    the merge node.  It adds count + 1 vertices and count edges, and the
    critical path becomes the longer of the one that was there and 1 (0 for
    count = 0, where the merge node stands alone). *)
Theorem bench_merge_appends (count : nat) (g0 : TaskGraph) :
  built g0 →
  ∃ g,
    bench_merge count g0 = Ok (mkHandle (graph_id g0) (length (nodes g0) + count), g) ∧
    nodes g = nodes g0 ++ ((λ x, mkNode do_something [Lit x]) <$> range count)
                       ++ [mkNode merge (Ref <$> new_handles g0 count)] ∧
    vertexCount g = vertexCount g0 + count + 1 ∧
    edgeCount g = edgeCount g0 + count ∧
    criticalPathLength g = criticalPathLength g0 `max` (1 `min` count).
Proof.
  intros Hb0.
  destruct (fan_in_spec do_something (λ x, x) (range count) g0 Hb0)
    as (g & Hrun & Hb & Hid & Hn).
  rewrite range_length in Hrun, Hn.
  pose proof (fan_in_metrics do_something (λ x, x) (range count) g0 g
                (built_wf g0 Hb0) (built_wf g Hb)) as Hm.
  rewrite range_length in Hm. specialize (Hm Hn).
  exists g. split_and!; [exact Hrun|exact Hn|apply Hm..].
Qed.

Lemma bench_merge_appends_after_tree :
  built (graph_of (bench_tree 2) 0) ∧
  ∃ g,
    bench_merge 0 (graph_of (bench_tree 2) 0) = Ok (mkHandle 0 3, g) ∧
    vertexCount g = 3 + 0 + 1 ∧ edgeCount g = 2 + 0 ∧ criticalPathLength g = 1.
Proof.
  pose proof (graph_of_built (bench_tree 2) 0 (preserves_built_bench_tree 2)) as Hb.
  split; [done|].
  destruct (bench_merge_appends 0 _ Hb) as (g & Hrun & _ & Hv & He & Hc).
  exists g. split_and!; done.
Defined.

(** ** What the recipes leave alone *)

Lemma frame_extension g0 g X :
  wf g0 → wf g → nodes g = nodes g0 ++ X →
  Forall (λ nd, Forall (λ p, length (nodes g0) ≤ p) (arg_refs (args nd))) X →
  (∀ n, n < length (nodes g0) →
        nodes g !! n = nodes g0 !! n ∧
        value_of g n = value_of g0 n ∧
        depth g n = depth g0 n ∧
        ∀ m, m ∈ default [] (succs g !! n) ↔ m ∈ default [] (succs g0 !! n)) ∧
  detached (length (nodes g0)) g.
Proof.
  intros Hwf0 Hwf Hn HX.
  assert (preds g = preds g0 ++ ((λ nd, arg_refs (args nd)) <$> X)) as Hp.
  { by rewrite (wf_preds g Hwf), Hn, fmap_app, <- (wf_preds g0 Hwf0). }
  assert (Hdet : detached (length (nodes g0)) g).
  { intros m ps p Hm Hge Hin. rewrite Hp in Hm.
    rewrite lookup_app_r in Hm by (by rewrite (wf_preds_length g0 Hwf0)).
    rewrite (wf_preds_length g0 Hwf0), list_lookup_fmap in Hm.
    destruct (X !! (m - length (nodes g0))) as [nd|] eqn:E; [|done].
    injection Hm as <-. rewrite Forall_lookup in HX.
    specialize (HX _ _ E). rewrite Forall_forall in HX. by apply HX. }
  split; [|done]. intros n Hlt. split_and!.
  - by rewrite Hn, lookup_app_l.
  - by apply (value_of_extend g0 g X).
  - unfold depth, longest_from_root. rewrite Hp.
    by rewrite longest_paths_prefix by (by rewrite (wf_preds_length g0 Hwf0)).
  - intros m. rewrite (wf_succs g Hwf), (wf_succs g0 Hwf0).
    destruct (decide (m < length (nodes g0))) as [Hm|Hm].
    + by rewrite Hp, lookup_app_l by (by rewrite (wf_preds_length g0 Hwf0)).
    + rewrite (lookup_ge_None_2 (preds g0)) by (rewrite (wf_preds_length g0 Hwf0); lia).
      simpl. split; [|by intros ?%elem_of_nil]. intros Hin.
      destruct (preds g !! m) as [ps|] eqn:E; [|done]. simpl in Hin.
      pose proof (Hdet m ps n E ltac:(lia) Hin). lia.
Qed.

(** X5. Neither recipe touches what was built before it: the nodes that were
    there keep their arguments, their value, their depth and their
    dependents, and no node of the recipe depends on any of them. *)
Theorem recipes_leave_existing_nodes (g0 g : TaskGraph) :
  built g0 →
  (∃ count h, bench_merge count g0 = Ok (h, g)) ∨
  (∃ exp L, bench_tree exp g0 = Ok (L, g)) →
  (∀ n, n < length (nodes g0) →
        nodes g !! n = nodes g0 !! n ∧
        value_of g n = value_of g0 n ∧
        depth g n = depth g0 n ∧
        ∀ m, m ∈ default [] (succs g !! n) ↔ m ∈ default [] (succs g0 !! n)) ∧
  detached (length (nodes g0)) g.
Proof.
  intros Hb0 [(count & h & Hrun)|(exp & L & Hrun)].
  - destruct (fan_in_spec do_something (λ x, x) (range count) g0 Hb0)
      as (g' & Hrun' & Hb & Hid & Hn).
    assert (g' = g) as -> by (unfold bench_merge in Hrun; congruence).
    eapply frame_extension; [by apply built_wf|by apply built_wf|exact Hn|].
    apply Forall_app. split.
    + apply Forall_fmap, Forall_true. intros x. simpl. constructor.
    + constructor; [|constructor]. simpl. rewrite arg_refs_Ref, new_handles_nodes.
      apply Forall_forall. by intros p [? _]%elem_of_seq.
  - destruct (bench_tree_from exp g0 Hb0) as (a & g' & Hrun' & Hb & Hid & Hv & He & _).
    assert (g' = g) as -> by congruence.
    destruct (tree_exact_final _ _ _ _ _ He) as (Hn & _).
    eapply frame_extension; [by apply built_wf|by apply built_wf|exact Hn|].
    apply Forall_forall. intros nd Hnd. apply Forall_forall. intros p Hp.
    apply elem_of_arg_refs in Hp as (h & Hh & <-).
    apply (tree_stream_refs (graph_id g0) (length (nodes g0)) exp (Ref h)).
    by eapply pair_nodes_args.
Qed.

Lemma recipes_leave_existing_nodes_example :
  (built (graph_of (bench_merge 2) 0) ∧
   ((∃ count h, bench_merge count (graph_of (bench_merge 2) 0)
                 = Ok (h, graph_of (bind (bench_merge 2) (λ _, bench_tree 1)) 0)) ∨
    (∃ exp L, bench_tree exp (graph_of (bench_merge 2) 0)
               = Ok (L, graph_of (bind (bench_merge 2) (λ _, bench_tree 1)) 0)))) ∧
  detached 3 (graph_of (bind (bench_merge 2) (λ _, bench_tree 1)) 0).
Proof.
  pose proof (graph_of_built (bench_merge 2) 0 (preserves_built_bench_merge 2)) as Hb.
  assert ((∃ count h, bench_merge count (graph_of (bench_merge 2) 0)
                 = Ok (h, graph_of (bind (bench_merge 2) (λ _, bench_tree 1)) 0)) ∨
    (∃ exp L, bench_tree exp (graph_of (bench_merge 2) 0)
               = Ok (L, graph_of (bind (bench_merge 2) (λ _, bench_tree 1)) 0))) as Hrun.
  { right. by exists 1, [Ref (mkHandle 0 3)]. }
  split; [done|]. apply (recipes_leave_existing_nodes _ _ Hb Hrun).
Defined.

(** ** The recipes side by side *)

(** X6. The recipes compose: when [bench_merge count] and then
    [bench_tree exp], exp >= 1, are built on the same graph, one [run] over
    both terminals gives each the value it has on its own,
    5 * count * (count - 1) and 2^(exp-1) * (2^exp - 1). *)
Theorem merge_then_tree
    (count exp : nat) (g0 g1 g2 : TaskGraph) (hm : Handle) (L : list Arg)
    (limit : positive) :
  built g0 → 1 ≤ exp →
  bench_merge count g0 = Ok (hm, g1) →
  bench_tree exp g1 = Ok (L, g2) →
  ∃ ht, L = [Ref ht] ∧
        run g2 [hm; ht] limit =
          Ok [(hm, Success (5 * Z.of_nat count * (Z.of_nat count - 1)));
              (ht, Success (2 ^ (Z.of_nat exp - 1) * (2 ^ Z.of_nat exp - 1)))].
Proof.
  intros Hb0 He Hm Ht.
  destruct (fan_in_spec do_something (λ x, x) (range count) g0 Hb0)
    as (g1' & Hm' & Hb1 & Hid1 & Hn1).
  assert (g1' = g1 ∧ hm = mkHandle (graph_id g0) (length (nodes g0) + length (range count)))
    as [-> ->] by (unfold bench_merge in Hm; split; congruence).
  destruct (fan_in_value do_something (λ x, x) (λ x, x * 10)%Z (range count) g0 g1
              (built_wf g1 Hb1) Hn1) as [_ Hvm]; [done|].
  rewrite py_sum_times_ten in Hvm.
  destruct (bench_tree_from exp g1 Hb1)
    as (a & g2' & Ht' & Hb2 & Hid2 & Hv & Hex & Hd & (vs & Hvs & Hsum)).
  assert (g2' = g2 ∧ L = [a]) as [-> ->] by (split; congruence).
  destruct (tree_exact_final _ _ _ _ _ Hex) as (Hn2 & _).
  destruct Hd as (_ & _ & _ & _ & Hlv). apply Forall_cons in Hlv as [Ha _].
  destruct a as [v|ht]; simpl in Ha; [lia|]. exists ht. split; [done|].
  apply Forall2_cons_inv_l in Hvs as (v & vs' & Hval & ->%Forall2_nil_inv_l & ->).
  rewrite py_sum_cons in Hsum. change (py_sum []) with 0%Z in Hsum.
  assert (v = py_sum (range (2 ^ exp))) as -> by lia. simpl in Hval.
  rewrite py_sum_range_pow in Hval by done.
  assert (length (nodes g1) = length (nodes g0) + length (range count) + 1) as Hl1.
  { rewrite Hn1, !length_app, length_fmap. simpl. lia. }
  rewrite run_spec; [|by apply built_wf|].
  - csimpl. rewrite (value_of_extend g1 g2 _ _ Hn2) by lia.
    by rewrite Hvm, Hval.
  - constructor; [|constructor; [exact Hv|constructor]].
    simpl. split; [congruence|]. rewrite Hn2, length_app. lia.
Qed.

Lemma merge_then_tree_example :
  (built (new_graph 0) ∧ 1 ≤ 2 ∧
   bench_merge 3 (new_graph 0) = Ok (mkHandle 0 3, graph_of (bench_merge 3) 0) ∧
   bench_tree 2 (graph_of (bench_merge 3) 0)
     = Ok ([Ref (mkHandle 0 6)], graph_of (bind (bench_merge 3) (λ _, bench_tree 2)) 0)) ∧
  ∃ ht, [Ref (mkHandle 0 6)] = [Ref ht] ∧
        run (graph_of (bind (bench_merge 3) (λ _, bench_tree 2)) 0) [mkHandle 0 3; ht] 2
          = Ok [(mkHandle 0 3, Success 30); (ht, Success 6)].
Proof.
  assert (bench_merge 3 (new_graph 0) = Ok (mkHandle 0 3, graph_of (bench_merge 3) 0))
    as Hm by done.
  assert (bench_tree 2 (graph_of (bench_merge 3) 0)
     = Ok ([Ref (mkHandle 0 6)], graph_of (bind (bench_merge 3) (λ _, bench_tree 2)) 0))
    as Ht by done.
  split; [split_and!; [constructor|lia|done|done]|].
  apply (merge_then_tree 3 2 _ _ _ _ _ 2 (built_new 0) ltac:(lia) Hm Ht).
Defined.

(** ** The slow merge recipe *)




(** X8. With a negative delay every [sleep] call raises: for count >= 1 each
    leaf of [bench_merge_slow] is reported as [TaskExecutionError] and the
    merge terminal as [DependencyFailedError]; for count = 0 no [sleep] call
    is made and the terminal still evaluates to 0. *)
Theorem bench_merge_slow_negative (gid count : nat) (delay : Z) (limit : positive) :
  (delay < 0)%Z →
  ∃ h g,
    bench_merge_slow count delay (new_graph gid) = Ok (h, g) ∧
    (1 ≤ count →
       run g [h] limit = Ok [(h, DependencyFailedError)] ∧
       ∀ i, i < count →
            run g [mkHandle gid i] limit
              = Ok [(mkHandle gid i, TaskExecutionError i)]) ∧
    (count = 0 → run g [h] limit = Ok [(h, Success 0)]).
Proof.
  intros Hd.
  destruct (fan_in_spec sleep (λ _ : Z, delay) (range count) (new_graph gid) (built_new gid))
    as (g & Hrun & Hb & Hid & Hn).
  pose proof (built_wf g Hb) as Hwf.
  assert (length (nodes g) = count + 1) as Hlen.
  { rewrite Hn, !length_app, length_fmap, range_length. simpl. lia. }
  rewrite range_length in *. simpl in Hrun, Hid, Hn.
  eexists _, g. split_and!; [exact Hrun| |].
  - intros Hc.
    destruct (fan_in_failure sleep (λ _ : Z, delay) (range count)
                (new_graph gid) g Hwf) as [Hleaf Hval].
    { by rewrite range_length. }
    { intros x _. simpl. by rewrite bool_decide_false by lia. }
    { intros Hnil%(f_equal length). rewrite range_length in Hnil. simpl in Hnil. lia. }
    rewrite range_length in *. simpl in Hleaf, Hval. split.
    + rewrite run_spec; [|done|].
      * csimpl. by rewrite Hval.
      * repeat constructor; simpl; [done|lia].
    + intros i Hi. rewrite run_spec; [|done|].
      * csimpl. by rewrite (Hleaf i Hi).
      * repeat constructor; simpl; [done|lia].
  - intros ->.
    destruct (fan_in_value sleep (λ _ : Z, delay) (λ _, delay) (range 0)
                (new_graph gid) g Hwf Hn) as [_ Hval].
    { by intros x ?%elem_of_nil. }
    simpl in Hval. rewrite run_spec; [|done|].
    + csimpl. by rewrite Hval.
    + repeat constructor; simpl; [done|lia].
Qed.

Lemma bench_merge_slow_negative_example :
  (-1 < 0)%Z ∧
  ∃ h g, bench_merge_slow 2 (-1) (new_graph 0) = Ok (h, g) ∧
         run g [h] 1 = Ok [(h, DependencyFailedError)].
Proof.
  split; [lia|].
  destruct (bench_merge_slow_negative 0 2 (-1) 1 ltac:(lia)) as (h & g & Hrun & H1 & _).
  exists h, g. split; [done|]. apply H1. lia.
Defined.

(** ** Every callable of a recipe runs once *)

(** X9. Whatever the schedule and the concurrency limit, a complete pass over
    the graph of [bench_tree exp] calls [add] exactly 2^exp - 1 times, once
    per node, and no call fails. *)
Theorem bench_tree_invocations
    (gid exp : nat) (L : list Arg) (g : TaskGraph) (limit : positive) (st : ExecState) :
  bench_tree exp (new_graph gid) = Ok (L, g) →
  execution g limit st → complete g st →
  failure_free g ∧
  length (trace st) = 2 ^ exp - 1 ∧
  ∀ n, n < 2 ^ exp - 1 → invocations st n = 1.
Proof.
  intros Hrun Hex Hc.
  destruct (bench_tree_from exp (new_graph gid) (built_new gid))
    as (a & g' & Hrun' & Hb & _ & _ & He & _).
  assert (g' = g) as -> by congruence.
  destruct (tree_exact_final _ _ _ _ _ He) as (Hn & _ & Hlen & _).
  simpl in Hn, Hlen. pose proof (built_wf g Hb) as Hwf.
  assert (failure_free g) as Hff.
  { apply failure_free_total; [done|]. rewrite Hn. apply pair_nodes_total. }
  destruct (invocations_failure_free g limit st Hwf Hff Hex Hc) as [Hl Hi].
  rewrite Hn, Hlen in Hl, Hi. done.
Qed.

Lemma bench_tree_invocations_example :
  (bench_tree 2 (new_graph 0) = Ok ([Ref (mkHandle 0 2)], graph_of (bench_tree 2) 0) ∧
   execution (graph_of (bench_tree 2) 0) 2 (state_of (execute (graph_of (bench_tree 2) 0) 2)) ∧
   complete (graph_of (bench_tree 2) 0) (state_of (execute (graph_of (bench_tree 2) 0) 2))) ∧
  length (trace (state_of (execute (graph_of (bench_tree 2) 0) 2))) = 3.
Proof.
  pose proof (graph_of_built (bench_tree 2) 0 (preserves_built_bench_tree 2)) as Hb.
  pose proof (state_of_execute (graph_of (bench_tree 2) 0) 2 (built_wf _ Hb)) as [Hex Hc].
  assert (bench_tree 2 (new_graph 0) = Ok ([Ref (mkHandle 0 2)], graph_of (bench_tree 2) 0))
    as Hrun by done.
  split; [done|].
  apply (bench_tree_invocations 0 2 _ _ 2 _ Hrun Hex Hc).
Defined.

(** X10. Whatever the schedule and the concurrency limit, a complete pass over
    the graph of [bench_merge count] calls [do_something] once per leaf and
    [merge] once, count + 1 calls in all, and no call fails. *)
Theorem bench_merge_invocations
    (gid count : nat) (h : Handle) (g : TaskGraph) (limit : positive) (st : ExecState) :
  bench_merge count (new_graph gid) = Ok (h, g) →
  execution g limit st → complete g st →
  failure_free g ∧
  length (trace st) = count + 1 ∧
  ∀ n, n < count + 1 → invocations st n = 1.
Proof.
  intros Hrun Hex Hc.
  destruct (fan_in_spec do_something (λ x, x) (range count) (new_graph gid) (built_new gid))
    as (g' & Hrun' & Hb & _ & Hn).
  assert (g' = g) as -> by (unfold bench_merge in Hrun; congruence).
  simpl in Hn. pose proof (built_wf g Hb) as Hwf.
  assert (length (nodes g) = count + 1) as Hlen.
  { rewrite Hn, !length_app, length_fmap, range_length. simpl. lia. }
  assert (failure_free g) as Hff.
  { apply failure_free_total; [done|]. rewrite Hn. apply Forall_app. split.
    - apply Forall_fmap, Forall_true. intros x vs Hvs. simpl in *.
      destruct vs as [|v [|? ?]]; simpl in Hvs; try lia. by eexists.
    - constructor; [|constructor]. intros vs _. by eexists. }
  destruct (invocations_failure_free g limit st Hwf Hff Hex Hc) as [Hl Hi].
  rewrite Hlen in Hl, Hi. done.
Qed.

Lemma bench_merge_invocations_example :
  (bench_merge 2 (new_graph 0) = Ok (mkHandle 0 2, graph_of (bench_merge 2) 0) ∧
   execution (graph_of (bench_merge 2) 0) 1 (state_of (execute (graph_of (bench_merge 2) 0) 1)) ∧
   complete (graph_of (bench_merge 2) 0) (state_of (execute (graph_of (bench_merge 2) 0) 1))) ∧
  length (trace (state_of (execute (graph_of (bench_merge 2) 0) 1))) = 3.
Proof.
  pose proof (graph_of_built (bench_merge 2) 0 (preserves_built_bench_merge 2)) as Hb.
  pose proof (state_of_execute (graph_of (bench_merge 2) 0) 1 (built_wf _ Hb)) as [Hex Hc].
  assert (bench_merge 2 (new_graph 0) = Ok (mkHandle 0 2, graph_of (bench_merge 2) 0))
    as Hrun by done.
  split; [done|].
  apply (bench_merge_invocations 0 2 _ _ 1 _ Hrun Hex Hc).
Defined.

(** ** The reduction tree *)

Lemma tree_stream_lookup_lit gid n0 e i :
  i < 2 ^ e → tree_stream gid n0 e !! i = Some (Lit (Z.of_nat i)).
Proof.
  intros Hi. unfold tree_stream.
  rewrite lookup_app_l by (by rewrite length_fmap, range_length).
  unfold range. by rewrite !list_lookup_fmap, lookup_seq_lt.
Qed.

Lemma tree_stream_lookup_ref gid n0 e i :
  i < 2 ^ e - 1 → tree_stream gid n0 e !! (2 ^ e + i) = Some (Ref (mkHandle gid (n0 + i))).
Proof.
  intros Hi. unfold tree_stream.
  rewrite lookup_app_r; rewrite length_fmap, range_length; [|lia].
  replace (2 ^ e + i - 2 ^ e) with i by lia.
  by rewrite !list_lookup_fmap, lookup_seq_lt.
Qed.

Lemma pair_nodes_add L :
  Forall (λ nd, callable nd = add ∧ length (args nd) = 2) (pair_nodes L).
Proof. induction L as [|x|x y L IH] using pair_ind; simpl; by constructor. Qed.

(** The node created last has no dependent. *)
Lemma last_node_sink g n : wf g → S n = length (nodes g) → succs g !! n = Some [].
Proof.
  intros Hwf Hn.
  destruct (lookup_lt_is_Some_2 (succs g) n) as [ss Hss].
  { rewrite (wf_succs_length g Hwf). lia. }
  rewrite Hss. f_equal. destruct ss as [|d ss]; [done|]. exfalso.
  pose proof (wf_succs g Hwf n d) as Hd. rewrite Hss in Hd. simpl in Hd.
  assert (n ∈ default [] (preds g !! d)) as Hin by (apply Hd; by left).
  destruct (preds g !! d) as [ps|] eqn:E; [|by apply elem_of_nil in Hin].
  pose proof (wf_back g d ps n Hwf E Hin).
  apply lookup_lt_Some in E. rewrite (wf_preds_length g Hwf) in E. lia.
Qed.

(** Every node of the tree but the last is an argument of a later node. *)
Lemma tree_nodes_used gid e N0 g j :
  wf g → nodes g = N0 ++ pair_nodes (tree_stream gid (length N0) e) →
  j < 2 ^ e - 2 →
  ∃ d, length N0 + j < d ∧ d ∈ default [] (succs g !! (length N0 + j)).
Proof.
  intros Hwf Hn Hj.
  pose proof (tree_stream_length gid (length N0) e) as HT.
  set (T := tree_stream gid (length N0) e) in *.
  pose proof (Nat.div_mod_eq (2 ^ e + j) 2) as Hq.
  pose proof (Nat.mod_upper_bound (2 ^ e + j) 2 ltac:(lia)) as Hr.
  set (i := (2 ^ e + j) / 2) in *. set (r := (2 ^ e + j) mod 2) in *.
  destruct (lookup_lt_is_Some_2 T (2 * i)) as [x Hx]; [lia|].
  destruct (lookup_lt_is_Some_2 T (2 * i + 1)) as [y Hy]; [lia|].
  pose proof (tree_stream_lookup_ref gid (length N0) e j ltac:(lia)) as Href.
  fold T in Href.
  assert (nodes g !! (length N0 + i) = Some (mkNode add [x; y])) as Hnd.
  { rewrite Hn, lookup_app_r by lia.
    replace (length N0 + i - length N0) with i by lia. by apply pair_nodes_lookup. }
  assert (preds g !! (length N0 + i) = Some (arg_refs [x; y])) as Hps.
  { by rewrite (wf_preds g Hwf), list_lookup_fmap, Hnd. }
  assert (length N0 + j ∈ arg_refs [x; y]) as Hin.
  { destruct (decide (r = 0)) as [Hr0|Hr1].
    - replace (2 ^ e + j) with (2 * i) in Href by lia.
      assert (x = Ref (mkHandle gid (length N0 + j))) as -> by congruence.
      simpl. by left.
    - replace (2 ^ e + j) with (2 * i + 1) in Href by lia.
      assert (y = Ref (mkHandle gid (length N0 + j))) as -> by congruence.
      destruct x; simpl; [by left|right; by left]. }
  exists (length N0 + i). split.
  - by apply (wf_back g (length N0 + i) (arg_refs [x; y])).
  - apply (wf_succs g Hwf). by rewrite Hps.
Qed.

(** C1, as the code has it.  For every exp >= 1, [bench_tree] builds
    2^exp - 1 nodes, all of them [add] calls: the 2^exp leaves are the
    literal arguments of the first level, two to a node, not nodes
    themselves, and every later node adds the results of two consecutive
    earlier nodes.  The 2^(exp-1) nodes of the first level have no incoming
    edge, the other 2^(exp-1) - 1 have exactly 2, from the two nodes whose
    results they add, so there are 2^exp - 2 edges, and the critical path
    has length exp - 1. *)
Theorem bench_tree_shape (gid exp : nat) :
  1 ≤ exp →
  ∃ h g, bench_tree exp (new_graph gid) = Ok ([Ref h], g) ∧
         vertexCount g = 2 ^ exp - 1 ∧
         Forall (λ nd, callable nd = add ∧ length (args nd) = 2) (nodes g) ∧
         (∀ j, j < 2 ^ (exp - 1) →
               nodes g !! j
                 = Some (mkNode add [Lit (Z.of_nat (2 * j)); Lit (Z.of_nat (2 * j + 1))])) ∧
         (∀ j, 2 ^ (exp - 1) ≤ j → j < 2 ^ exp - 1 →
               nodes g !! j
                 = Some (mkNode add [Ref (mkHandle gid (2 * (j - 2 ^ (exp - 1))));
                                     Ref (mkHandle gid (2 * (j - 2 ^ (exp - 1)) + 1))])) ∧
         (∀ j, j < 2 ^ (exp - 1) → preds g !! j = Some []) ∧
         (∀ j, 2 ^ (exp - 1) ≤ j → j < 2 ^ exp - 1 →
               preds g !! j
                 = Some [2 * (j - 2 ^ (exp - 1)); 2 * (j - 2 ^ (exp - 1)) + 1]) ∧
         leafCount g = 2 ^ (exp - 1) ∧
         internalCount g = 2 ^ (exp - 1) - 1 ∧
         Forall (λ q, q = [] ∨ length q = 2) (preds g) ∧
         edgeCount g = 2 ^ exp - 2 ∧
         criticalPathLength g = exp - 1.
Proof.
  intros He. destruct (bench_tree_shape_aux exp gid)
    as (a & g & Hrun & Hb & Hv & _ & Hlp & Hleaf & Hint & Hsum & Hdeg & Hlv & Hd).
  destruct (bench_tree_from exp (new_graph gid) (built_new gid))
    as (a' & g' & Hrun' & _ & _ & _ & Hex & _).
  assert (a' = a ∧ g' = g) as [-> ->] by (split; congruence).
  destruct (tree_exact_final _ _ _ _ _ Hex) as (Hn & _). simpl in Hn.
  pose proof (built_wf g Hb) as Hwf.
  apply Forall_cons in Hlv as [Ha _]. rewrite Nat.sub_0_r in Ha, Hd.
  destruct a as [v|h]; simpl in Ha; [lia|].
  exists h, g. rewrite decide_False in Hleaf by lia.
  change (2 ^ 0) with 1 in *. change (2 ^ 1) with 2 in *.
  assert (2 ^ exp = 2 * 2 ^ (exp - 1)) as Hpe.
  { replace exp with (S (exp - 1)) at 1 by lia. apply Nat.pow_succ_r'. }
  assert (∀ j, j < 2 ^ (exp - 1) →
            nodes g !! j
              = Some (mkNode add [Lit (Z.of_nat (2 * j)); Lit (Z.of_nat (2 * j + 1))]))
    as Hfirst.
  { intros j Hj. rewrite Hn. apply pair_nodes_lookup.
    - apply tree_stream_lookup_lit. lia.
    - apply tree_stream_lookup_lit. lia. }
  assert (∀ j, 2 ^ (exp - 1) ≤ j → j < 2 ^ exp - 1 →
            nodes g !! j
              = Some (mkNode add [Ref (mkHandle gid (2 * (j - 2 ^ (exp - 1))));
                                  Ref (mkHandle gid (2 * (j - 2 ^ (exp - 1)) + 1))]))
    as Hlater.
  { intros j Hj1 Hj2. rewrite Hn. apply pair_nodes_lookup.
    - replace (2 * j) with (2 ^ exp + 2 * (j - 2 ^ (exp - 1))) by lia.
      by rewrite tree_stream_lookup_ref by lia.
    - replace (2 * j + 1) with (2 ^ exp + (2 * (j - 2 ^ (exp - 1)) + 1)) by lia.
      by rewrite tree_stream_lookup_ref by lia. }
  split_and!; try done.
  - unfold vertexCount. by rewrite <- (wf_preds_length g Hwf).
  - rewrite Hn. apply pair_nodes_add.
  - intros j Hj. by rewrite (wf_preds g Hwf), list_lookup_fmap, (Hfirst j Hj).
  - intros j Hj1 Hj2.
    by rewrite (wf_preds g Hwf), list_lookup_fmap, (Hlater j Hj1 Hj2).
  - by rewrite edgeCount_in_degree.
  - rewrite criticalPathLength_max by done. apply Nat.le_antisymm.
    + apply max_list_le. intros d Hin. rewrite Forall_forall in Hd.
      specialize (Hd d Hin). lia.
    + pose proof (depth_le_max g (h_node h)). lia.
Qed.

Lemma bench_tree_shape_3 :
  1 ≤ 3 ∧
  ∃ h g, bench_tree 3 (new_graph 0) = Ok ([Ref h], g) ∧
         vertexCount g = 7 ∧
         Forall (λ nd, callable nd = add ∧ length (args nd) = 2) (nodes g) ∧
         nodes g !! 0 = Some (mkNode add [Lit 0; Lit 1]) ∧
         nodes g !! 6 = Some (mkNode add [Ref (mkHandle 0 4); Ref (mkHandle 0 5)]) ∧
         preds g !! 0 = Some [] ∧ preds g !! 6 = Some [4; 5] ∧
         leafCount g = 4 ∧ internalCount g = 3 ∧
         Forall (λ q, q = [] ∨ length q = 2) (preds g) ∧
         edgeCount g = 6 ∧ criticalPathLength g = 2.
Proof.
  split; [lia|].
  destruct (bench_tree_shape 0 3 ltac:(lia))
    as (h & g & Hrun & Hv & Hadd & Hfirst & Hlater & Hp0 & Hp2 & Hl & Hi & Hdeg & He & Hc).
  exists h, g. split_and!; try done.
  - apply (Hfirst 0). simpl. lia.
  - apply (Hlater 6); simpl; lia.
  - apply (Hp0 0). simpl. lia.
  - apply (Hp2 6); simpl; lia.
Defined.

(** C9. [bench_tree exp] returns a list of exactly one element.  For exp = 0
    it is the literal 0 and no node is created.  For exp >= 1 it is a handle,
    the root of the reduction tree: the nodes created are the pairwise [add]
    nodes over the literals of range(2 ** exp) and over their own handles,
    the root is the one created last, at depth exp - 1, it has no dependent,
    and every other node created is an argument of a later one.  The graph
    is again one built by deferred calls. *)
Theorem bench_tree_returns (exp : nat) (g0 : TaskGraph) :
  built g0 →
  ∃ a g, bench_tree exp g0 = Ok ([a], g) ∧
         built g ∧
         (exp = 0 → a = Lit 0 ∧ g = g0) ∧
         (1 ≤ exp →
          ∃ h, a = Ref h ∧ h_graph h = graph_id g ∧
               S (h_node h) = length (nodes g) ∧
               length (nodes g0) < length (nodes g) ∧
               graph_id g = graph_id g0 ∧
               nodes g = nodes g0
                           ++ pair_nodes (tree_stream (graph_id g0) (length (nodes g0)) exp) ∧
               length (nodes g) = length (nodes g0) + (2 ^ exp - 1) ∧
               (∀ j x y,
                  tree_stream (graph_id g0) (length (nodes g0)) exp !! (2 * j) = Some x →
                  tree_stream (graph_id g0) (length (nodes g0)) exp !! (2 * j + 1) = Some y →
                  nodes g !! (length (nodes g0) + j) = Some (mkNode add [x; y])) ∧
               depth g (h_node h) = exp - 1 ∧
               succs g !! h_node h = Some [] ∧
               (∀ m, length (nodes g0) ≤ m → m < h_node h →
                     ∃ d, m < d ∧ d ∈ default [] (succs g !! m))).
Proof.
  intros Hb0. destruct exp as [|e].
  - exists (Lit 0), g0. split_and!; [done|done|done|lia].
  - destruct (bench_tree_front (S e) g0 Hb0) as (a & g & Hrun & Hb & Hid & Hv & Hf).
    destruct (bench_tree_from (S e) g0 Hb0)
      as (a' & g' & Hrun' & _ & _ & _ & Hex & Hd & _).
    assert (a' = a ∧ g' = g) as [-> ->] by (split; congruence).
    destruct (tree_exact_final _ _ _ _ _ Hex) as (Hn & _ & Hlen & _).
    pose proof (built_wf g Hb) as Hwf.
    exists a, g. split_and!; [done|done|done|]. intros _.
    destruct Hf as [_ [Ha Hpos]]; [lia|]. change (2 ^ 0) with 1 in *.
    simpl in Ha. injection Ha as ->.
    destruct Hd as (_ & _ & _ & _ & Hlv). apply Forall_cons in Hlv as [Hlv _].
    simpl in Hlv.
    assert (length (nodes g) = length (nodes g0) + (2 ^ S e - 1)) as Hlg.
    { by rewrite Hn, length_app, Hlen. }
    pose proof (pow2_pos e) as Hpe. pose proof (Nat.pow_succ_r' 2 e) as Hps.
    eexists. split_and!; [done|done|simpl; lia|lia|done|done|done| | | |].
    + intros j x y Hx Hy. rewrite Hn, lookup_app_r by lia.
      replace (length (nodes g0) + j - length (nodes g0)) with j by lia.
      by apply pair_nodes_lookup.
    + simpl. lia.
    + apply last_node_sink; [done|]. simpl. lia.
    + simpl. intros m Hm1 Hm2.
      destruct (tree_nodes_used (graph_id g0) (S e) (nodes g0) g
                  (m - length (nodes g0)) Hwf Hn ltac:(lia)) as (d & Hd1 & Hd2).
      replace (length (nodes g0) + (m - length (nodes g0))) with m in * by lia.
      by exists d.
Qed.

Lemma bench_tree_returns_2 :
  built (new_graph 0) ∧
  ∃ a g, bench_tree 2 (new_graph 0) = Ok ([a], g) ∧
         a = Ref (mkHandle 0 2) ∧
         nodes g = [mkNode add [Lit 0; Lit 1]; mkNode add [Lit 2; Lit 3];
                    mkNode add [Ref (mkHandle 0 0); Ref (mkHandle 0 1)]] ∧
         depth g 2 = 1 ∧ succs g !! 2 = Some [].
Proof.
  split; [constructor|].
  destruct (bench_tree_returns 2 (new_graph 0) (built_new 0))
    as (a & g & Hrun & _ & _ & H1).
  destruct (H1 ltac:(lia)) as (h & -> & Hg & Hh & _ & Hid & Hn & Hl & _ & Hd & Hs & _).
  simpl in Hn, Hl, Hid. rewrite Hl in Hh. injection Hh as Hh. rewrite Hh in Hd, Hs.
  exists (Ref h), g. split_and!; try done.
  f_equal. destruct h as [hg hn]. simpl in *. f_equal; congruence.
Defined.
